(** * SaaS ROI calculator: the metrics engine of [src/App.tsx]

    The component keeps six numeric inputs and a pricing-model flag in React
    state, validates them ([validateInputs]), derives the financial metrics
    ([calculations]) and projects them onto three chart points ([chartData]).

    A JavaScript [number] is an IEEE 754 binary64 value; it is modelled by
    Rocq's primitive [float], which is the same format with the same
    round-to-nearest-even operations.  Nothing is idealised: overflow to
    [Infinity], [NaN] and the signed zero behave as in the browser. *)

From Stdlib Require Import Floats ZArith Bool Reals Lra Lia Psatz.
From stdpp Require Import gmap strings.

(* Decimal literals denote the nearest binary64 value, as in JavaScript. *)
Set Warnings "-inexact-float".

Open Scope float_scope.

(** ** JavaScript number primitives used by the component *)

Module JS.

(** [a < b] and [a > b] on numbers: false as soon as one side is [NaN]. *)
Definition lt (a b : float) : bool := a <? b.
Definition gt (a b : float) : bool := b <? a.

(** The global [isNaN] on a number. *)
Definition isNaN (a : float) : bool := is_nan a.

(** [Number.isFinite]: neither NaN nor an infinity, that is, a real number. *)
Definition isFinite (a : float) : bool := is_finite a.

Definition Infinity : float := infinity.
Definition NaN : float := nan.

(** Sign bit of a number, to tell [+0] from [-0]. *)
Definition negative_sign (a : float) : bool := get_sign a.

(** [Math.max(a, b)]: [NaN] if either argument is [NaN]; otherwise the
    larger one, where [+0] counts as larger than [-0]. *)
Definition Math_max (a b : float) : float :=
  if is_nan a || is_nan b then nan
  else if a <? b then b
  else if b <? a then a
  else if negative_sign a then b else a.

(** [o ?? d]: the default only when the property is absent. *)
Definition nullish {A} (o : option A) (d : A) : A :=
  match o with Some v => v | None => d end.

End JS.

(** ** Component state *)

Inductive PricingModel := monthly | annual.

Record Inputs := mkInputs {
  licenseCost : float;
  numUsers : float;
  hoursSaved : float;
  hourlyRate : float;
  implementationCost : float;
  timeToValue : float;
  pricingModel : PricingModel
}.

(** The initial state of the component ([useState] defaults). *)
Definition defaults : Inputs :=
  mkInputs 50 10 5 75 5000 3 monthly.

(** [handleChange] of [InputField]: what a field receives when its text
    parses ([parseFloat]) to [val]; an unparsable text gives NaN and is
    stored as 0. *)
Definition handleChange (val : float) : float :=
  if JS.isNaN val then 0 else val.

(** [InputErrors]: an object with one optional message per field, used as a
    map from field name to message. *)
Abbreviation InputErrors := (gmap string string).

(** ** [validateInputs] *)

Definition set_if (c : bool) (k v : string) (e : InputErrors) : InputErrors :=
  if c then <[k := v]> e else e.

Definition newErrors (i : Inputs) : InputErrors :=
  let e : InputErrors := ∅ in
  let e := set_if (JS.lt (licenseCost i) 0) "licenseCost" "Cannot be negative." e in
  let e := set_if (JS.lt (numUsers i) 1) "numUsers" "Must be at least 1." e in
  let e := set_if (JS.lt (hoursSaved i) 0) "hoursSaved" "Cannot be negative." e in
  let e := set_if (JS.lt (hourlyRate i) 0) "hourlyRate" "Cannot be negative." e in
  let e := set_if (JS.lt (implementationCost i) 0) "implementationCost" "Cannot be negative." e in
  let e := set_if (JS.lt (timeToValue i) 0) "timeToValue" "Cannot be negative." e in
  e.

(** [validateInputs] stores the error object in the state ([setErrors]) and
    returns whether it has no key; the pair is (stored errors, result). *)
Definition validateInputs (i : Inputs) : InputErrors * bool :=
  let e := newErrors i in
  (e, bool_decide (size e = 0%nat)).

(** ** [calculations] *)

(** The object returned by the [calculations] memo.  The early return for
    invalid inputs has no [firstYearAdjustedSavings] property, hence the
    option. *)
Record Calculations := mkCalculations {
  annualSavings : float;
  firstYearAdjustedSavings : option float;
  firstYearTotalCost : float;
  annualROI : float;
  paybackPeriodMonths : float;
  annualNetValue : float;
  annualLicenseCost : float;
  totalSavingsOver3Years : float;
  monthlyNetSavings : float
}.

Definition invalidCalculations : Calculations :=
  {| annualSavings := JS.NaN;
     firstYearAdjustedSavings := None;
     firstYearTotalCost := JS.NaN;
     annualROI := JS.NaN;
     paybackPeriodMonths := JS.NaN;
     annualNetValue := JS.NaN;
     annualLicenseCost := JS.NaN;
     totalSavingsOver3Years := JS.NaN;
     monthlyNetSavings := JS.NaN |}.

(** The body of the memo after the validation guard. *)
Definition derive (i : Inputs) : Calculations :=
    let actualLicenseCost :=
      match pricingModel i with
      | annual => licenseCost i
      | monthly => licenseCost i * 12
      end in
    let annualLicenseCost := actualLicenseCost * numUsers i in
    let weeklySavingsPerUser := hoursSaved i * hourlyRate i in
    let totalWeeklySavings := weeklySavingsPerUser * numUsers i in
    let annualSavings := totalWeeklySavings * 52 in
    let firstYearTotalCost := annualLicenseCost + implementationCost i in
    let annualNetValue := annualSavings - annualLicenseCost in
    let annualROI :=
      if JS.gt firstYearTotalCost 0 then (annualNetValue / firstYearTotalCost) * 100
      else if JS.gt annualNetValue 0 then JS.Infinity
      else 0 in
    let monthlyNetSavings := (annualSavings - annualLicenseCost) / 12 in
    let paybackPeriodMonths :=
      if JS.gt monthlyNetSavings 0
      then timeToValue i + (implementationCost i / monthlyNetSavings)
      else JS.Infinity in
    let firstYearEffectiveMonthsOfSavings := JS.Math_max 0 (12 - timeToValue i) in
    let firstYearAdjustedSavings :=
      annualSavings * (firstYearEffectiveMonthsOfSavings / 12) in
    let totalSavingsOver3Years := firstYearAdjustedSavings + (annualSavings * 2) in
    {| annualSavings := annualSavings;
       firstYearAdjustedSavings := Some firstYearAdjustedSavings;
       firstYearTotalCost := firstYearTotalCost;
       annualROI := annualROI;
       paybackPeriodMonths := paybackPeriodMonths;
       annualNetValue := annualNetValue;
       annualLicenseCost := annualLicenseCost;
       totalSavingsOver3Years := totalSavingsOver3Years;
       monthlyNetSavings := monthlyNetSavings |}.

Definition calculations (i : Inputs) : Calculations :=
  if negb (snd (validateInputs i)) then invalidCalculations
  else derive i.

(** ** [chartData] *)

Record ChartPoint := mkChartPoint {
  name : string;
  Cost : float;
  Savings : option float;
  Net_Value : float
}.

Definition chartData (c : Calculations) : list ChartPoint :=
  if JS.isNaN (firstYearTotalCost c) then
    [ mkChartPoint "Year 1" 0 (Some 0) 0;
      mkChartPoint "Year 2" 0 (Some 0) 0;
      mkChartPoint "Year 3" 0 (Some 0) 0 ]
  else
    let year1NetValue :=
      JS.nullish (firstYearAdjustedSavings c) 0 - JS.nullish (Some (firstYearTotalCost c)) 0 in
    [ mkChartPoint "Year 1" (firstYearTotalCost c) (firstYearAdjustedSavings c) year1NetValue;
      mkChartPoint "Year 2" (annualLicenseCost c) (Some (annualSavings c)) (annualNetValue c);
      mkChartPoint "Year 3" (annualLicenseCost c) (Some (annualSavings c)) (annualNetValue c) ].

(** ** The validation constraints, as the form states them *)

Inductive Field :=
| FLicenseCost | FNumUsers | FHoursSaved | FHourlyRate
| FImplementationCost | FTimeToValue.

Definition all_fields : list Field :=
  [FLicenseCost; FNumUsers; FHoursSaved; FHourlyRate; FImplementationCost; FTimeToValue].

(** Key of a field in the [InputErrors] object. *)
Definition key (f : Field) : string :=
  match f with
  | FLicenseCost => "licenseCost"
  | FNumUsers => "numUsers"
  | FHoursSaved => "hoursSaved"
  | FHourlyRate => "hourlyRate"
  | FImplementationCost => "implementationCost"
  | FTimeToValue => "timeToValue"
  end.

(** [violated f i]: the constraint on field [f] is broken by [i]. *)
Definition violated (f : Field) (i : Inputs) : bool :=
  match f with
  | FLicenseCost => licenseCost i <? 0
  | FNumUsers => numUsers i <? 1
  | FHoursSaved => hoursSaved i <? 0
  | FHourlyRate => hourlyRate i <? 0
  | FImplementationCost => implementationCost i <? 0
  | FTimeToValue => timeToValue i <? 0
  end.

(** A valid input: none of the six constraints is violated. *)
Definition Valid (i : Inputs) : Prop := ∀ f, violated f i = false.

(** The value of a field. *)
Definition field (f : Field) (i : Inputs) : float :=
  match f with
  | FLicenseCost => licenseCost i
  | FNumUsers => numUsers i
  | FHoursSaved => hoursSaved i
  | FHourlyRate => hourlyRate i
  | FImplementationCost => implementationCost i
  | FTimeToValue => timeToValue i
  end.

(** The data model has real numbers in the six fields: the initial state
    has, [handleChange] never stores NaN, and a number input holds no
    infinity. *)
Definition RealInputs (i : Inputs) : Prop := ∀ f, JS.isFinite (field f i) = true.

(** ** The chart as the specification describes it *)

(** The three yearly points of a result whose first-year adjusted savings
    are [a]. *)
Definition yearly_points (c : Calculations) (a : float) : list ChartPoint :=
  [ mkChartPoint "Year 1" (firstYearTotalCost c) (Some a) (a - firstYearTotalCost c);
    mkChartPoint "Year 2" (annualLicenseCost c) (Some (annualSavings c)) (annualNetValue c);
    mkChartPoint "Year 3" (annualLicenseCost c) (Some (annualSavings c)) (annualNetValue c) ].

Definition zero_points : list ChartPoint :=
  [ mkChartPoint "Year 1" 0 (Some 0) 0;
    mkChartPoint "Year 2" 0 (Some 0) 0;
    mkChartPoint "Year 3" 0 (Some 0) 0 ].

(** ** Inputs used as examples *)

(** One negative field. *)
Definition negative_rate : Inputs := mkInputs 50 10 5 (-1) 5000 3 monthly.

(** One and a half users. *)
Definition fractional_users : Inputs := mkInputs 50 1.5 5 75 5000 3 monthly.

(** A monthly license cost whose yearly amount exceeds the binary64 range. *)
Definition overflowing_license : Inputs := mkInputs 1e308 10 5 75 5000 3 monthly.

(** Nothing to pay and something saved. *)
Definition free_tool : Inputs := mkInputs 0 10 5 75 0 3 monthly.

(** ** Vocabulary for reasoning about binary64 values

    [Prim2SF] maps a primitive float to its sign, mantissa and exponent
    ([spec_float]); the definitions below speak about the real number such a
    triple denotes. *)

(** [2 ^ e] as a real number, for any integer exponent. *)
Definition bpow (e : Z) : R := powerRZ 2 e.

(** The value [m * 2 ^ e] of a mantissa and an exponent. *)
Definition F2R (m e : Z) : R := (IZR m * bpow e)%R.

(** A shift record has lost bits when its round or sticky bit is set. *)
Definition inexact (mrs : shr_record) : bool := shr_r mrs || shr_s mrs.

(** NaN, or a number that is not negative (either zero counts). *)
Definition SFnonneg (x : spec_float) : Prop :=
  match x with
  | S754_nan | S754_zero _ => True
  | S754_infinity s | S754_finite s _ _ => s = false
  end.

(** A number strictly above zero. *)
Definition SFpos (x : spec_float) : Prop :=
  match x with
  | S754_infinity false | S754_finite false _ _ => True
  | _ => False
  end.

(** NaN, or a number that is at least [- y]. *)
Definition SFge_neg (x : spec_float) (y : R) : Prop :=
  match x with
  | S754_nan | S754_zero _ => True
  | S754_infinity s => s = false
  | S754_finite false _ _ => True
  | S754_finite true m e => (F2R (Z.pos m) e <= y)%R
  end.

(** A number that is not negative, NaN excluded. *)
Definition SFnn (x : spec_float) : Prop :=
  match x with
  | S754_nan => False
  | S754_zero _ => True
  | S754_infinity s | S754_finite s _ _ => s = false
  end.

(** A real number: a zero or a finite non-zero value. *)
Definition SFfinite (x : spec_float) : Prop :=
  match x with
  | S754_zero _ | S754_finite _ _ _ => True
  | _ => False
  end.

(** A positive number that is at least [y]. *)
Definition SFge (x : spec_float) (y : R) : Prop :=
  match x with
  | S754_infinity false => True
  | S754_finite false m e => (y <= F2R (Z.pos m) e)%R
  | _ => False
  end.

(** ** The form: what its controls do to the state *)

(** [setLicenseCost], [setNumUsers], ...: the setter of a field. *)
Definition setField (f : Field) (v : float) (i : Inputs) : Inputs :=
  match f with
  | FLicenseCost =>
      mkInputs v (numUsers i) (hoursSaved i) (hourlyRate i)
        (implementationCost i) (timeToValue i) (pricingModel i)
  | FNumUsers =>
      mkInputs (licenseCost i) v (hoursSaved i) (hourlyRate i)
        (implementationCost i) (timeToValue i) (pricingModel i)
  | FHoursSaved =>
      mkInputs (licenseCost i) (numUsers i) v (hourlyRate i)
        (implementationCost i) (timeToValue i) (pricingModel i)
  | FHourlyRate =>
      mkInputs (licenseCost i) (numUsers i) (hoursSaved i) v
        (implementationCost i) (timeToValue i) (pricingModel i)
  | FImplementationCost =>
      mkInputs (licenseCost i) (numUsers i) (hoursSaved i) (hourlyRate i)
        v (timeToValue i) (pricingModel i)
  | FTimeToValue =>
      mkInputs (licenseCost i) (numUsers i) (hoursSaved i) (hourlyRate i)
        (implementationCost i) v (pricingModel i)
  end.

Definition setPricingModel (m : PricingModel) (i : Inputs) : Inputs :=
  mkInputs (licenseCost i) (numUsers i) (hoursSaved i) (hourlyRate i)
    (implementationCost i) (timeToValue i) m.

(** The "Load Example Data" button: six setters, the pricing model stays. *)
Definition loadExample (i : Inputs) : Inputs :=
  setField FTimeToValue 3
    (setField FImplementationCost 5000
       (setField FHourlyRate 75
          (setField FHoursSaved 5
             (setField FNumUsers 10
                (setField FLicenseCost 50 i))))).

(** The "Clear Inputs" button. *)
Definition clearInputs (i : Inputs) : Inputs :=
  setField FTimeToValue 0
    (setField FImplementationCost 0
       (setField FHourlyRate 0
          (setField FHoursSaved 0
             (setField FNumUsers 0
                (setField FLicenseCost 0 i))))).

(** What the user can do.  [Change f parsed] is an edit of the box of field
    [f] whose text [parseFloat] reads as [parsed]. *)
Inductive Event :=
| Change (f : Field) (parsed : float)
| SetPricing (m : PricingModel)
| LoadExample
| ClearInputs.

Definition step (i : Inputs) (e : Event) : Inputs :=
  match e with
  | Change f parsed => setField f (handleChange parsed) i
  | SetPricing m => setPricingModel m i
  | LoadExample => loadExample i
  | ClearInputs => clearInputs i
  end.

(** The state after a sequence of events. *)
Definition run (events : list Event) (i : Inputs) : Inputs :=
  fold_left step events i.

(** No field is NaN. *)
Definition NoNaN (i : Inputs) : Prop := ∀ f, is_nan (field f i) = false.

(** The constraint on a field as its message words it: at least 1 user, no
    negative amount. *)
Definition meets (f : Field) (i : Inputs) : bool :=
  match f with
  | FNumUsers => 1 <=? numUsers i
  | _ => 0 <=? field f i
  end.

(** The message [validateInputs] stores for a field. *)
Definition message (f : Field) : string :=
  match f with
  | FNumUsers => "Must be at least 1."
  | _ => "Cannot be negative."
  end.

(** ** Rendered text

    Strings built from numbers go through [Intl.NumberFormat], [toFixed] and
    the number-to-string conversion of template literals.  Those are kept as
    uninterpreted nodes; everything the component itself decides (which
    branch, which literal, in which order) is explicit. *)
Inductive Text :=
| Lit (s : string)
| FormatCurrency (x : float)
| ToFixed (digits : nat) (x : float)
| ToString (x : float)
| Cat (a b : Text).

(** The [value] attribute of a field's box. *)
Definition inputValue (value : float) : Text :=
  if value =? 0 then Lit "" else ToString value.

(** The three output cards. *)
Definition savingsCard (c : Calculations) : Text :=
  if JS.isNaN (annualSavings c) then Lit "N/A"
  else FormatCurrency (annualSavings c).

Definition paybackCard (c : Calculations) : Text :=
  if JS.isNaN (paybackPeriodMonths c) then Lit "N/A"
  else if paybackPeriodMonths c =? JS.Infinity then Lit "Never"
  else ToFixed 1 (paybackPeriodMonths c).

Definition roiCard (c : Calculations) : Text :=
  if JS.isNaN (annualROI c) then Lit "N/A"
  else if annualROI c =? JS.Infinity then Lit "Infinite %"
  else Cat (ToFixed 1 (annualROI c)) (Lit "%").

(** [tickFormatter] of the chart's value axis. *)
Definition tickFormatter (value : float) : Text :=
  if 1000000 <=? value then
    Cat (Lit "$") (Cat (ToFixed 1 (value / 1000000)) (Lit "M"))
  else if 1000 <=? value then
    Cat (Lit "$") (Cat (ToFixed 0 (value / 1000)) (Lit "K"))
  else Cat (Lit "$") (ToString value).

(** ** Exports *)










(** The lines of the PDF report: text, x and y. *)
Definition pdfLines (c : Calculations) : list (Text * Z * Z) :=
  [ (Lit "SaaS ROI Calculator Results", 10, 20)%Z;
    (Cat (Lit "Annual Recurring Savings: ") (FormatCurrency (annualSavings c)), 10, 40)%Z;
    (Cat (Lit "Annual License Cost: ") (FormatCurrency (annualLicenseCost c)), 10, 50)%Z;
    (Cat (Lit "First Year Total Cost: ") (FormatCurrency (firstYearTotalCost c)), 10, 60)%Z;
    (Cat (Lit "Net Value (Annual): ") (FormatCurrency (annualNetValue c)), 10, 70)%Z;
    (Cat (Lit "First Year ROI: ") (Cat (ToFixed 1 (annualROI c)) (Lit "%")), 10, 80)%Z;
    (Cat (Lit "Payback Period (Months): ") (ToFixed 1 (paybackPeriodMonths c)), 10, 90)%Z;
    (Cat (Lit "Total Savings Over 3 Years: ") (FormatCurrency (totalSavingsOver3Years c)), 10, 100)%Z ].

(** ** More example inputs *)

(** A tool whose yearly licenses cost exactly what it saves in a year. *)
Definition break_even : Inputs := mkInputs 19500 10 5 75 5000 3 annual.

(** A tool that takes fourteen months to deliver. *)
Definition slow_start : Inputs := mkInputs 50 10 5 75 5000 14 monthly.

(** ** More vocabulary for binary64 values *)

(** The real number a zero or finite value denotes. *)
Definition SF2R (x : spec_float) : R :=
  match x with
  | S754_finite false m e => F2R (Z.pos m) e
  | S754_finite true m e => (- F2R (Z.pos m) e)%R
  | _ => 0%R
  end.

(** A zero, or a positive finite number that is at most [y]. *)
Definition SFupto (x : spec_float) (y : R) : Prop :=
  match x with
  | S754_zero _ => True
  | S754_finite false m e => (F2R (Z.pos m) e <= y)%R
  | _ => False
  end.

(** * Binary64 arithmetic: how rounding moves a value *)

Section Bpow.
Local Open Scope R_scope.

Lemma bpow_gt_0 e : 0 < bpow e.
Proof. apply powerRZ_lt. lra. Qed.

Lemma bpow_add a b : bpow (a + b) = bpow a * bpow b.
Proof. apply powerRZ_add. lra. Qed.

Lemma bpow_0 : bpow 0 = 1.
Proof. reflexivity. Qed.

Lemma bpow_1 : bpow 1 = 2.
Proof. unfold bpow. simpl. lra. Qed.

Lemma bpow_IZR n : (0 <= n)%Z → bpow n = IZR (2 ^ n).
Proof.
  intros Hn. destruct n as [|p|p]; [done| |lia].
  unfold bpow. rewrite <- Zpower_pos_powerRZ. done.
Qed.

Lemma bpow_le a b : (a <= b)%Z → bpow a <= bpow b.
Proof.
  intros Hab. replace b with (a + (b - a))%Z by lia.
  rewrite bpow_add, (bpow_IZR (b - a)) by lia.
  assert (1 <= IZR (2 ^ (b - a))) as H1.
  { apply IZR_le. assert (0 < 2 ^ (b - a))%Z by (apply Z.pow_pos_nonneg; lia). lia. }
  pose proof (bpow_gt_0 a). nra.
Qed.

Lemma bpow_lt a b : (a < b)%Z → bpow a < bpow b.
Proof.
  intros Hab. replace b with (a + 1 + (b - a - 1))%Z by lia.
  rewrite !bpow_add, bpow_1.
  pose proof (bpow_le 0 (b - a - 1) ltac:(lia)) as H1. rewrite bpow_0 in H1.
  pose proof (bpow_gt_0 a). nra.
Qed.

Lemma bpow_lt_inv a b : bpow a < bpow b → (a < b)%Z.
Proof.
  intros H. destruct (Z_lt_le_dec a b) as [|Hle]; [done|].
  apply bpow_le in Hle. lra.
Qed.

Lemma F2R_shift m e n : (0 <= n)%Z → F2R (m * 2 ^ n) e = F2R m (e + n).
Proof.
  intros Hn. unfold F2R. rewrite mult_IZR, bpow_add, <- bpow_IZR by done. ring.
Qed.

End Bpow.

Section Digits.
Local Open Scope Z_scope.

Lemma digits2_pos_size m : digits2_pos m = Pos.size m.
Proof. induction m; simpl; congruence. Qed.

Lemma digits2_pos_bounds m :
  (2 ^ (Z.pos (digits2_pos m) - 1) <= Z.pos m < 2 ^ Z.pos (digits2_pos m))%Z.
Proof.
  rewrite digits2_pos_size. split.
  - pose proof (Pos.size_le m) as H.
    assert (2 ^ Z.pos (Pos.size m) <= 2 * Z.pos m)%Z as H'.
    { change (2 * Z.pos m)%Z with (Z.pos m~0). rewrite <- Pos2Z.inj_pow. lia. }
    replace (Z.pos (Pos.size m)) with (Z.pos (Pos.size m) - 1 + 1)%Z in H' by lia.
    rewrite Z.pow_add_r in H' by lia. lia.
  - pose proof (Pos.size_gt m) as H. rewrite <- Pos2Z.inj_pow. lia.
Qed.

Lemma Zdigits2_bounds m :
  (0 < m)%Z → (2 ^ (Zdigits2 m - 1) <= m < 2 ^ Zdigits2 m)%Z.
Proof. destruct m; try lia. intros _. apply digits2_pos_bounds. Qed.

Lemma Zdigits2_nonneg m : (0 <= Zdigits2 m)%Z.
Proof. destruct m; simpl; lia. Qed.

(** A lower bound on the value gives a lower bound on the number of digits. *)
Lemma Zdigits2_ge m k : (0 <= k)%Z → (2 ^ k <= m)%Z → (k + 1 <= Zdigits2 m)%Z.
Proof.
  intros Hk Hm. assert (0 < m)%Z as Hpos.
  { pose proof (Z.pow_pos_nonneg 2 k). lia. }
  destruct (Zdigits2_bounds m Hpos) as [_ Hu].
  destruct (Z_lt_le_dec k (Zdigits2 m)) as [|Hle]; [lia|].
  pose proof (Z.pow_le_mono_r 2 _ _ ltac:(lia) Hle). lia.
Qed.

Lemma Zdigits2_le m k : (0 <= m)%Z → (0 <= k)%Z → (m < 2 ^ k)%Z → (Zdigits2 m <= k)%Z.
Proof.
  intros Hm Hk Hlt. destruct (Z.eq_dec m 0) as [->|]; [simpl; lia|].
  destruct (Zdigits2_bounds m ltac:(lia)) as [Hl _].
  destruct (Z_lt_le_dec k (Zdigits2 m)) as [Hgt|]; [|lia].
  pose proof (Z.pow_le_mono_r 2 k (Zdigits2 m - 1) ltac:(lia) ltac:(lia)). lia.
Qed.

End Digits.

Section ShiftRight.
Local Open Scope Z_scope.

Lemma iter_pos_iter {A} (f : A → A) p x : SpecFloat.iter_pos f p x = Pos.iter f x p.
Proof.
  revert x. induction p as [p IH|p IH|]; intros x; simpl; [|by rewrite !IH|done].
  rewrite !IH, <- !Pos.iter_swap. done.
Qed.

Lemma shr_1_spec mrs :
  0 <= shr_m mrs →
  shr_m (shr_1 mrs) = shr_m mrs / 2
  ∧ inexact (shr_1 mrs) = Z.odd (shr_m mrs) || inexact mrs.
Proof.
  destruct mrs as [m r s]; unfold inexact; simpl. intros Hm.
  destruct m as [|[p|p|]|]; simpl; try lia; split; try done.
  - rewrite Pos2Z.inj_xI. Z.div_mod_to_equations; lia.
  - rewrite Pos2Z.inj_xO. Z.div_mod_to_equations; lia.
Qed.

Lemma iter_shr_1_spec p mrs :
  0 <= shr_m mrs →
  let r := SpecFloat.iter_pos shr_1 p mrs in
  shr_m r = shr_m mrs / 2 ^ Z.pos p
  ∧ (inexact r = false ↔ inexact mrs = false ∧ shr_m mrs = 2 ^ Z.pos p * shr_m r).
Proof.
  intros Hm. cbv zeta. rewrite iter_pos_iter.
  apply (Pos.iter_ind _ shr_1 mrs
           (λ p r, shr_m r = shr_m mrs / 2 ^ Z.pos p
                   ∧ (inexact r = false ↔
                      inexact mrs = false ∧ shr_m mrs = 2 ^ Z.pos p * shr_m r))).
  - destruct (shr_1_spec mrs Hm) as [H1 H2]. rewrite H1, H2.
    change (2 ^ 1) with 2. split; [done|].
    rewrite orb_false_iff, <- Z.negb_even, negb_false_iff, Z.even_spec.
    split.
    + intros [[k Hk] Hi]. split; [done|]. rewrite Hk. Z.div_mod_to_equations; lia.
    + intros [Hi Hk]. split; [|done]. by eexists.
  - clear p. intros p r [IH1 IH2].
    assert (0 <= shr_m r) as Hr.
    { rewrite IH1. apply Z.div_pos; [done|]. apply Z.pow_pos_nonneg; lia. }
    destruct (shr_1_spec r Hr) as [H1 H2]. rewrite H1, H2.
    rewrite Pos2Z.inj_succ, Z.pow_succ_r by lia.
    assert (0 < 2 ^ Z.pos p) as Hp by (apply Z.pow_pos_nonneg; lia).
    split.
    + rewrite IH1, Z.div_div by lia. f_equal. lia.
    + rewrite orb_false_iff, <- Z.negb_even, negb_false_iff, Z.even_spec, IH2.
      split.
      * intros [[k Hk] [Hi Hm']]. split; [done|].
        rewrite Hm', Hk. replace (2 * k / 2) with k by (Z.div_mod_to_equations; lia). lia.
      * intros [Hi Hm'].
        assert (shr_m r = 2 * (shr_m r / 2)) as Hk.
        { rewrite IH1 at 1. rewrite Hm'.
          replace (2 * 2 ^ Z.pos p * (shr_m r / 2)) with (2 * (shr_m r / 2) * 2 ^ Z.pos p) by lia.
          apply Z.div_mul. lia. }
        split; [by eexists|]. split; [done|]. lia.
Qed.

(** What [shr] does to a non-negative mantissa: the exponent grows by [n],
    the mantissa is divided by [2 ^ n], rounding down, and the record says
    whether anything was lost. *)
Lemma shr_spec mrs e n :
  0 <= shr_m mrs →
  let '(r, e') := shr mrs e n in
  (n <= 0 ∧ r = mrs ∧ e' = e)
  ∨ (0 < n ∧ e' = e + n ∧ shr_m r = shr_m mrs / 2 ^ n
     ∧ (inexact r = false ↔ inexact mrs = false ∧ shr_m mrs = 2 ^ n * shr_m r)).
Proof.
  intros Hm. destruct n as [|p|p]; simpl; [left; split; [lia|done]| |left; split; [lia|done]].
  right. destruct (iter_shr_1_spec p mrs Hm) as [H1 H2]. done.
Qed.

Lemma inexact_of_loc m l : inexact (shr_record_of_loc m l) = false ↔ l = loc_Exact.
Proof. destruct l as [|[]]; unfold inexact; simpl; split; done. Qed.

Lemma shr_m_of_loc m l : shr_m (shr_record_of_loc m l) = m.
Proof. by destruct l as [|[]]. Qed.

Lemma loc_of_shr_record_exact mrs :
  loc_of_shr_record mrs = loc_Exact ↔ inexact mrs = false.
Proof. destruct mrs as [m [] []]; unfold inexact; simpl; split; done. Qed.

Lemma round_nearest_even_bounds m l :
  m <= round_nearest_even m l <= m + 1
  ∧ (l = loc_Exact → round_nearest_even m l = m).
Proof.
  destruct l as [|[]]; simpl; try (split; [lia|done]).
  destruct (Z.even m); split; try lia; done.
Qed.

End ShiftRight.

Section Rounding64.
Local Open Scope Z_scope.

Local Abbreviation fexp := (SpecFloat.fexp prec emax).
Local Abbreviation bounded := (SpecFloat.bounded prec emax).

Lemma fexp_eq e : fexp e = Z.max (e - 53) (-1074).
Proof. reflexivity. Qed.

Lemma bounded_iff m e :
  bounded m e = true ↔ e = fexp (Z.pos (digits2_pos m) + e) ∧ e <= 971.
Proof.
  unfold SpecFloat.bounded, canonical_mantissa.
  rewrite andb_true_iff, Z.eqb_eq, Z.leb_le. change (emax - prec) with 971.
  split; intros [H1 H2]; done.
Qed.

Lemma F2R_le_iff a b e : (F2R a e <= F2R b e)%R ↔ a <= b.
Proof.
  unfold F2R. pose proof (bpow_gt_0 e). split.
  - intros Hle. apply le_IZR. nra.
  - intros Hle. apply IZR_le in Hle. nra.
Qed.

Lemma F2R_lt_iff a b e : (F2R a e < F2R b e)%R ↔ a < b.
Proof.
  unfold F2R. pose proof (bpow_gt_0 e). split.
  - intros Hlt. apply lt_IZR. nra.
  - intros Hlt. apply IZR_lt in Hlt. nra.
Qed.

Lemma F2R_div_le m e n : 0 <= m → 0 <= n → (F2R (m / 2 ^ n) (e + n) <= F2R m e)%R.
Proof.
  intros Hm Hn. rewrite <- F2R_shift by done. apply F2R_le_iff.
  assert (0 < 2 ^ n) by (apply Z.pow_pos_nonneg; lia).
  Z.div_mod_to_equations; nia.
Qed.

Lemma F2R_digits_lower m e : 0 < m → (bpow (Zdigits2 m - 1 + e) <= F2R m e)%R.
Proof.
  intros Hm. destruct (Zdigits2_bounds m Hm) as [Hl _].
  assert (0 <= Zdigits2 m - 1).
  { destruct m; simpl in *; lia. }
  rewrite bpow_add, bpow_IZR by done. unfold F2R.
  apply IZR_le in Hl. pose proof (bpow_gt_0 e). nra.
Qed.

Lemma F2R_digits_upper m e : 0 < m → (F2R m e < bpow (Zdigits2 m + e))%R.
Proof.
  intros Hm. destruct (Zdigits2_bounds m Hm) as [_ Hu].
  rewrite bpow_add, bpow_IZR by apply Zdigits2_nonneg. unfold F2R.
  apply IZR_lt in Hu. pose proof (bpow_gt_0 e). nra.
Qed.

(** A representable number is below [2 ^ (53 + e)], and its exponent is in range. *)
Lemma bounded_range m e :
  bounded m e = true →
  -1074 <= e <= 971 ∧ Z.pos (digits2_pos m) + e - 53 <= e
  ∧ (F2R (Z.pos m) e < bpow (53 + e))%R.
Proof.
  rewrite bounded_iff, fexp_eq. intros [Hc He].
  split; [lia|]. split; [lia|].
  eapply Rlt_le_trans; [apply F2R_digits_upper; lia|].
  apply bpow_le. simpl. lia.
Qed.

(** Anything positive below a representable number has a canonical exponent
    that is at most the exponent of that number. *)
Lemma fexp_le_bounded m e my ey :
  0 < m → bounded my ey = true →
  (F2R m e <= F2R (Z.pos my) ey)%R →
  fexp (Zdigits2 m + e) <= ey.
Proof.
  intros Hm Hb Hle. destruct (bounded_range _ _ Hb) as (He & _ & Hu).
  pose proof (F2R_digits_lower m e Hm) as Hl.
  assert (Zdigits2 m - 1 + e < 53 + ey) by (apply bpow_lt_inv; lra).
  rewrite fexp_eq. lia.
Qed.

Lemma F2R_rescale m e e' : e' <= e → F2R m e = F2R (m * 2 ^ (e - e')) e'.
Proof.
  intros He. rewrite F2R_shift by lia. f_equal. lia.
Qed.

Lemma shr_fexp_spec m e l :
  0 <= m →
  let n := fexp (Zdigits2 m + e) - e in
  let '(r, e') := shr_fexp prec emax m e l in
  (n <= 0 ∧ r = shr_record_of_loc m l ∧ e' = e)
  ∨ (0 < n ∧ e' = e + n ∧ shr_m r = m / 2 ^ n
     ∧ (inexact r = false ↔ l = loc_Exact ∧ m = 2 ^ n * shr_m r)).
Proof.
  intros Hm n. unfold shr_fexp. fold n.
  pose proof (shr_spec (shr_record_of_loc m l) e n) as H.
  rewrite shr_m_of_loc in H. specialize (H Hm).
  destruct (shr (shr_record_of_loc m l) e n) as [r e'].
  destruct H as [H|(Hn & He & Hr & Hi)]; [by left|right].
  rewrite inexact_of_loc in Hi. done.
Qed.

(** The same when the mantissa has at least the digits the format keeps. *)
Lemma shr_fexp_spec_enough m e l :
  0 <= m → e <= fexp (Zdigits2 m + e) →
  let n := fexp (Zdigits2 m + e) - e in
  let '(r, e') := shr_fexp prec emax m e l in
  e' = e + n ∧ shr_m r = m / 2 ^ n
  ∧ (inexact r = false ↔ l = loc_Exact ∧ m = 2 ^ n * shr_m r).
Proof.
  intros Hm He n. pose proof (shr_fexp_spec m e l Hm) as H. fold n in H.
  destruct (shr_fexp prec emax m e l) as [r e'].
  destruct H as [(Hn & -> & ->)|(Hn & -> & Hr & Hi)]; [|done].
  assert (n = 0) as -> by lia. rewrite shr_m_of_loc, inexact_of_loc.
  rewrite Z.div_1_r. split; [lia|]. split; [done|]. split; intros H; [|by destruct H].
  split; [done|lia].
Qed.


(** The second normalisation step of [binary_round_aux]: it never increases
    the value, and leaves a non-negative mantissa. *)
Lemma renormalise_spec R e :
  0 <= R → -1074 <= e →
  let '(r, e') := shr_fexp prec emax R e loc_Exact in
  0 <= shr_m r ∧ (F2R (shr_m r) e' <= F2R R e)%R
  ∧ (e' = e ∨ (0 < R ∧ e' = fexp (Zdigits2 R + e))).
Proof.
  intros HR He. pose proof (shr_fexp_spec R e loc_Exact HR) as H. cbv zeta in H.
  destruct (shr_fexp prec emax R e loc_Exact) as [r e'].
  destruct H as [(Hn & -> & ->)|(Hn & -> & Hr & _)].
  - simpl. split; [done|]. split; [lra|by left].
  - rewrite Hr. split; [|split].
    + apply Z.div_pos; [done|]. apply Z.pow_pos_nonneg; lia.
    + apply F2R_div_le; lia.
    + right. split; [|lia]. destruct (Z.eq_dec R 0) as [->|]; [|lia].
      simpl in Hn. rewrite fexp_eq in Hn. lia.
Qed.

(** *** Rounding never crosses a representable number from below

    If the exact value [mx * 2 ^ ex] (plus the fraction described by [lx])
    is at most a representable [y], so is its rounding; in particular the
    rounding does not overflow. *)
Lemma binary_round_aux_up s mx ex lx my ey :
  0 <= mx → ex <= fexp (Zdigits2 mx + ex) →
  bounded my ey = true →
  (F2R mx ex <= F2R (Z.pos my) ey)%R →
  (lx ≠ loc_Exact → (F2R mx ex < F2R (Z.pos my) ey)%R) →
  match binary_round_aux prec emax s mx ex lx with
  | S754_zero s' => s' = s
  | S754_finite s' m e => s' = s ∧ (F2R (Z.pos m) e <= F2R (Z.pos my) ey)%R
  | _ => False
  end.
Proof.
  intros Hmx He Hb Hle Hlt. unfold binary_round_aux.
  pose proof (shr_fexp_spec_enough mx ex lx Hmx He) as H1. cbv zeta in H1.
  destruct (shr_fexp prec emax mx ex lx) as [r1 e1].
  destruct H1 as (He1 & Hm1 & Hi1).
  set (n := fexp (Zdigits2 mx + ex) - ex) in *.
  assert (0 <= n) as Hn by (unfold n; lia).
  assert (0 < 2 ^ n) as Hpn by (apply Z.pow_pos_nonneg; lia).
  destruct (bounded_range _ _ Hb) as (Hey & _ & _).
  assert (e1 <= ey) as He1y.
  { destruct (Z.eq_dec mx 0) as [->|Hnz].
    - subst n. cbn [Zdigits2] in *. rewrite Z.add_0_l in *. rewrite fexp_eq in *. lia.
    - pose proof (fexp_le_bounded mx ex my ey ltac:(lia) Hb Hle). lia. }
  set (k := Z.pos my * 2 ^ (ey - e1)).
  assert (F2R (Z.pos my) ey = F2R (k * 2 ^ n) ex) as Hy.
  { rewrite (F2R_rescale _ ey e1) by done. fold k.
    rewrite F2R_shift by done. f_equal. lia. }
  rewrite Hy in Hle, Hlt. rewrite F2R_le_iff in Hle.
  assert (lx ≠ loc_Exact → mx < k * 2 ^ n) as Hlt'.
  { intros Hl. apply (F2R_lt_iff _ _ ex). auto. }
  clear Hlt.
  set (R := round_nearest_even (shr_m r1) (loc_of_shr_record r1)).
  destruct (round_nearest_even_bounds (shr_m r1) (loc_of_shr_record r1)) as [HR HRx].
  fold R in HR, HRx.
  assert (0 <= shr_m r1) as Hr1 by (rewrite Hm1; apply Z.div_pos; lia).
  assert (R <= k) as HRk.
  { destruct (inexact r1) eqn:Hin.
    - assert (shr_m r1 < k); [|lia].
      destruct (Z_lt_le_dec (shr_m r1) k) as [|Hge]; [done|exfalso].
      assert (mx = 2 ^ n * shr_m r1) as Hex.
      { rewrite Hm1 in Hge |- *. Z.div_mod_to_equations; nia. }
      destruct lx as [|c].
      + assert (true = false) by (apply Hi1; done). done.
      + specialize (Hlt' ltac:(done)). rewrite Hm1 in Hge. Z.div_mod_to_equations; nia.
    - rewrite HRx by (by apply loc_of_shr_record_exact).
      rewrite Hm1. Z.div_mod_to_equations; nia. }
  assert ((F2R R e1 <= F2R (Z.pos my) ey)%R) as HRy.
  { rewrite (F2R_rescale _ ey e1) by done. fold k. by apply F2R_le_iff. }
  assert (-1074 <= e1) as He1l.
  { rewrite He1. unfold n. rewrite fexp_eq. lia. }
  pose proof (renormalise_spec R e1 ltac:(lia) He1l) as H2.
  destruct (shr_fexp prec emax R e1 loc_Exact) as [r2 e2].
  destruct H2 as (Hr2 & Hv2 & He2).
  destruct (shr_m r2) as [|m2|m2] eqn:Hm2; [done| |lia].
  assert (e2 <= 971) as He2'.
  { destruct He2 as [->|[HRpos ->]]; [lia|].
    pose proof (fexp_le_bounded R e1 my ey HRpos Hb HRy). lia. }
  change (emax - prec) with 971.
  destruct (Z.leb_spec e2 971); [|lia].
  split; [done|lra].
Qed.


Lemma F2R_pos m e : 0 < m → (0 < F2R m e)%R.
Proof.
  intros Hm. unfold F2R. apply IZR_lt in Hm. pose proof (bpow_gt_0 e). nra.
Qed.

Lemma F2R_pos_inv m e : (0 < F2R m e)%R → 0 < m.
Proof.
  intros H. apply (F2R_lt_iff 0 m e). unfold F2R at 1. lra.
Qed.

(** Dropping the low bits of a mantissa down to its canonical exponent does
    not take it below a representable number that it was above. *)
Lemma floor_low M E my ey :
  0 < M → E <= fexp (Zdigits2 M + E) →
  bounded my ey = true →
  (F2R (Z.pos my) ey <= F2R M E)%R →
  let n := fexp (Zdigits2 M + E) - E in
  (F2R (Z.pos my) ey <= F2R (M / 2 ^ n) (E + n))%R.
Proof.
  intros HM HE Hb Hle n.
  assert (0 <= n) as Hn by (unfold n; lia).
  assert (0 < 2 ^ n) as Hpn by (apply Z.pow_pos_nonneg; lia).
  destruct (bounded_range _ _ Hb) as (Hey & _ & Hu).
  destruct (Z_le_gt_dec (E + n) ey) as [Hk|Hk].
  - rewrite (F2R_rescale _ ey (E + n)) in Hle |- * by done.
    rewrite <- F2R_shift in Hle by done.
    apply F2R_le_iff in Hle. apply F2R_le_iff.
    apply Z.div_le_lower_bound; lia.
  - assert (n = Zdigits2 M - 53) as Hn'.
    { unfold n in *. rewrite fexp_eq in *. lia. }
    destruct (Zdigits2_bounds M HM) as [Hl _].
    assert (2 ^ 52 <= M / 2 ^ n) as H52.
    { apply Z.div_le_lower_bound; [done|].
      rewrite <- Z.pow_add_r by lia. replace (n + 52) with (Zdigits2 M - 1) by lia. done. }
    apply Rlt_le. eapply Rlt_le_trans; [exact Hu|].
    apply Rle_trans with (F2R (2 ^ 52) (E + n)).
    + unfold F2R. rewrite <- bpow_IZR, <- bpow_add by lia. apply bpow_le. lia.
    + by apply F2R_le_iff.
Qed.

(** *** Rounding never crosses a representable number from above

    If the exact value is at least a representable [y], its rounding is a
    finite number that is at least [y], or it overflows to infinity. *)
Lemma binary_round_aux_low s mx ex lx my ey :
  0 <= mx → ex <= fexp (Zdigits2 mx + ex) →
  bounded my ey = true →
  (F2R (Z.pos my) ey <= F2R mx ex)%R →
  match binary_round_aux prec emax s mx ex lx with
  | S754_infinity s' => s' = s
  | S754_finite s' m e => s' = s ∧ (F2R (Z.pos my) ey <= F2R (Z.pos m) e)%R
  | _ => False
  end.
Proof.
  intros Hmx He Hb Hle. unfold binary_round_aux.
  pose proof (F2R_pos (Z.pos my) ey ltac:(lia)) as Hy.
  assert (0 < mx) as Hmx' by (apply (F2R_pos_inv mx ex); lra).
  pose proof (shr_fexp_spec_enough mx ex lx Hmx He) as H1. cbv zeta in H1.
  pose proof (floor_low mx ex my ey Hmx' He Hb Hle) as Hf. cbv zeta in Hf.
  destruct (shr_fexp prec emax mx ex lx) as [r1 e1].
  destruct H1 as (He1 & Hm1 & _).
  rewrite <- He1, <- Hm1 in Hf.
  assert (-1074 <= e1) as He1l.
  { rewrite He1. rewrite fexp_eq. lia. }
  set (R := round_nearest_even (shr_m r1) (loc_of_shr_record r1)).
  destruct (round_nearest_even_bounds (shr_m r1) (loc_of_shr_record r1)) as [HR _].
  fold R in HR.
  assert ((F2R (Z.pos my) ey <= F2R R e1)%R) as HRy.
  { eapply Rle_trans; [exact Hf|]. apply F2R_le_iff. lia. }
  assert (0 < R) as HRpos by (apply (F2R_pos_inv R e1); lra).
  pose proof (shr_fexp_spec R e1 loc_Exact ltac:(lia)) as H2. cbv zeta in H2.
  pose proof (floor_low R e1 my ey HRpos) as Hf2. cbv zeta in Hf2.
  destruct (shr_fexp prec emax R e1 loc_Exact) as [r2 e2].
  assert ((F2R (Z.pos my) ey <= F2R (shr_m r2) e2)%R) as Hfin.
  { destruct H2 as [(Hn & -> & ->)|(Hn & -> & -> & _)]; [done|].
    apply Hf2; [lia|done|done]. }
  assert (0 < shr_m r2) as Hpos2 by (apply (F2R_pos_inv _ e2); lra).
  destruct (shr_m r2) as [|m2|m2]; [lia| |lia].
  destruct (e2 <=? emax - prec); done.
Qed.


(** [binary_round_aux] keeps the sign it is given, and never returns NaN. *)
Lemma binary_round_aux_sign s mx ex lx :
  0 <= mx →
  match binary_round_aux prec emax s mx ex lx with
  | S754_zero s' | S754_infinity s' | S754_finite s' _ _ => s' = s
  | S754_nan => False
  end.
Proof.
  intros Hmx. unfold binary_round_aux.
  pose proof (shr_fexp_spec mx ex lx Hmx) as H1. cbv zeta in H1.
  destruct (shr_fexp prec emax mx ex lx) as [r1 e1].
  assert (0 <= shr_m r1) as Hr1.
  { destruct H1 as [(_ & -> & _)|(Hn & _ & -> & _)].
    - by rewrite shr_m_of_loc.
    - apply Z.div_pos; [done|]. apply Z.pow_pos_nonneg; lia. }
  destruct (round_nearest_even_bounds (shr_m r1) (loc_of_shr_record r1)) as [HR _].
  set (R := round_nearest_even (shr_m r1) (loc_of_shr_record r1)) in *.
  pose proof (shr_fexp_spec R e1 loc_Exact ltac:(lia)) as H2. cbv zeta in H2.
  destruct (shr_fexp prec emax R e1 loc_Exact) as [r2 e2].
  assert (0 <= shr_m r2) as Hr2.
  { destruct H2 as [(_ & -> & _)|(Hn & _ & -> & _)].
    - simpl. lia.
    - apply Z.div_pos; [lia|]. apply Z.pow_pos_nonneg; lia. }
  destruct (shr_m r2); [done| |lia].
  destruct (e2 <=? emax - prec); done.
Qed.

(** *** Alignment *)

Lemma Pos_iter_xO m d : Z.pos (Pos.iter xO m d) = Z.pos m * 2 ^ Z.pos d.
Proof.
  change (Pos.iter xO m d) with (shift_pos d m).
  rewrite shift_pos_correct. change (Z.pow_pos 2 d) with (2 ^ Z.pos d). lia.
Qed.


Lemma shl_align_spec m e e' :
  let '(m', e'') := shl_align m e e' in
  (e' < e ∧ e'' = e' ∧ Z.pos m' = Z.pos m * 2 ^ (e - e'))
  ∨ (e <= e' ∧ m' = m ∧ e'' = e).
Proof.
  unfold shl_align. destruct (e' - e) as [|d|d] eqn:Hd.
  - right. split; [lia|done].
  - right. split; [lia|done].
  - left. split; [lia|]. split; [done|].
    rewrite Pos_iter_xO. f_equal. f_equal. lia.
Qed.

Lemma shl_align_fst m e e' :
  e' <= e → F2R (Z.pos (fst (shl_align m e e'))) e' = F2R (Z.pos m) e.
Proof.
  intros He. pose proof (shl_align_spec m e e') as H.
  destruct (shl_align m e e') as [m' e'']. simpl.
  destruct H as [(Hlt & -> & ->)|(Hle & -> & ->)].
  - rewrite F2R_shift by lia. f_equal. lia.
  - f_equal. lia.
Qed.

Lemma Zdigits2_unique m a : 0 <= a → 2 ^ (a - 1) <= m < 2 ^ a → 0 < m → Zdigits2 m = a.
Proof.
  intros Ha [Hl Hu] Hm.
  pose proof (Zdigits2_le m a ltac:(lia) Ha Hu).
  destruct (Z.eq_dec a 0) as [->|]. 
  { pose proof (Zdigits2_nonneg m). lia. }
  pose proof (Zdigits2_ge m (a - 1) ltac:(lia) Hl). lia.
Qed.

Lemma Zdigits2_shift m k : 0 < m → 0 <= k → Zdigits2 (m * 2 ^ k) = Zdigits2 m + k.
Proof.
  intros Hm Hk. destruct (Zdigits2_bounds m Hm) as [Hl Hu].
  assert (0 < 2 ^ k) by (apply Z.pow_pos_nonneg; lia).
  assert (1 <= Zdigits2 m) by (destruct m; simpl in *; lia).
  apply Zdigits2_unique; [lia| |nia].
  replace (Zdigits2 m + k - 1) with (Zdigits2 m - 1 + k) by lia.
  rewrite !Z.pow_add_r by lia. nia.
Qed.

(** [binary_round] first widens the mantissa so that the rounding step has
    enough digits to work on, without changing the value. *)
Lemma binary_round_aligned m e :
  let '(mz, ez) := shl_align m e (fexp (Z.pos (digits2_pos m) + e)) in
  F2R (Z.pos mz) ez = F2R (Z.pos m) e
  ∧ ez <= fexp (Zdigits2 (Z.pos mz) + ez).
Proof.
  pose proof (shl_align_spec m e (fexp (Z.pos (digits2_pos m) + e))) as H.
  destruct (shl_align m e (fexp (Z.pos (digits2_pos m) + e))) as [mz ez].
  destruct H as [(Hlt & -> & Hm)|(Hle & -> & ->)].
  - rewrite Hm. split.
    + rewrite F2R_shift by lia. f_equal. lia.
    + rewrite Zdigits2_shift by lia. simpl Zdigits2.
      replace (Z.pos (digits2_pos m) + (e - fexp (Z.pos (digits2_pos m) + e))
               + fexp (Z.pos (digits2_pos m) + e)) with (Z.pos (digits2_pos m) + e) by lia.
      lia.
  - split; [done|]. simpl. done.
Qed.

Lemma binary_round_sign s m e :
  match binary_round prec emax s m e with
  | S754_zero s' | S754_infinity s' | S754_finite s' _ _ => s' = s
  | S754_nan => False
  end.
Proof.
  unfold binary_round.
  destruct (shl_align m e (fexp (Z.pos (digits2_pos m) + e))) as [mz ez].
  apply binary_round_aux_sign. lia.
Qed.

Lemma binary_round_up s m e my ey :
  bounded my ey = true →
  (F2R (Z.pos m) e <= F2R (Z.pos my) ey)%R →
  match binary_round prec emax s m e with
  | S754_zero s' => s' = s
  | S754_finite s' m' e' => s' = s ∧ (F2R (Z.pos m') e' <= F2R (Z.pos my) ey)%R
  | _ => False
  end.
Proof.
  intros Hb Hle. unfold binary_round.
  pose proof (binary_round_aligned m e) as H.
  destruct (shl_align m e (fexp (Z.pos (digits2_pos m) + e))) as [mz ez].
  destruct H as [Hv Hd].
  apply binary_round_aux_up; [lia|done|done|lra|done].
Qed.

Lemma binary_round_low s m e my ey :
  bounded my ey = true →
  (F2R (Z.pos my) ey <= F2R (Z.pos m) e)%R →
  match binary_round prec emax s m e with
  | S754_infinity s' => s' = s
  | S754_finite s' m' e' => s' = s ∧ (F2R (Z.pos my) ey <= F2R (Z.pos m') e')%R
  | _ => False
  end.
Proof.
  intros Hb Hle. unfold binary_round.
  pose proof (binary_round_aligned m e) as H.
  destruct (shl_align m e (fexp (Z.pos (digits2_pos m) + e))) as [mz ez].
  destruct H as [Hv Hd].
  apply binary_round_aux_low; [lia|done|done|lra].
Qed.

End Rounding64.

Section Operations64.
Local Open Scope Z_scope.

Local Abbreviation fexp := (SpecFloat.fexp prec emax).
Local Abbreviation bounded := (SpecFloat.bounded prec emax).

Lemma SFnonneg_ge_neg x y : SFnonneg x → SFge_neg x y.
Proof. destruct x as [s|s| |[] m e]; simpl; done. Qed.

Lemma SFge_pos x y : SFge x y → SFpos x.
Proof. destruct x as [s|[]| |[] m e]; simpl; done. Qed.

(** *** Subtraction and addition *)

Lemma SFsub_nonneg_zero x s : SFnonneg x → SFnonneg (SF64sub x (S754_zero s)).
Proof. destruct x as [[]|[]| |[] ? ?], s; simpl; done. Qed.

(** [S - L >= -L] for [S >= 0] and a finite positive [L]. *)
Lemma SFsub_ge_neg x mL eL :
  SFnonneg x → bounded mL eL = true →
  SFge_neg (SF64sub x (S754_finite false mL eL)) (F2R (Z.pos mL) eL).
Proof.
  intros Hx Hb. destruct x as [s|s| |s m e]; simpl in Hx; try done.
  - simpl. lra.
  - subst s. unfold SF64sub, SFsub. cbn [cond_Zopp].
    set (ez := Z.min e eL).
    pose proof (shl_align_fst m e ez ltac:(lia)) as Ha.
    pose proof (shl_align_fst mL eL ez ltac:(lia)) as Hb'.
    set (a := fst (shl_align m e ez)) in *.
    set (b := fst (shl_align mL eL ez)) in *.
    destruct (Z.pos a - Z.pos b) as [|d|d] eqn:Hd; unfold binary_normalize.
    + done.
    + apply SFnonneg_ge_neg. pose proof (binary_round_sign false d ez) as Hs.
      destruct (binary_round prec emax false d ez); done.
    + assert ((F2R (Z.pos d) ez <= F2R (Z.pos mL) eL)%R) as Hle.
      { rewrite <- Hb'. apply F2R_le_iff. lia. }
      pose proof (binary_round_up true d ez mL eL Hb Hle) as Hu.
      destruct (binary_round prec emax true d ez) as [s'|s'| |s' m' e']; try done.
      destruct Hu as [-> Hu]. done.
Qed.

(** [L + I >= L] for a finite positive [L] and [I >= 0]. *)
Lemma SFadd_ge mL eL y :
  bounded mL eL = true → SFnonneg y → y ≠ S754_nan →
  SFge (SF64add (S754_finite false mL eL) y) (F2R (Z.pos mL) eL).
Proof.
  intros Hb Hy Hn. destruct y as [s|s| |s m e]; simpl in Hy; try done.
  - simpl. lra.
  - subst s. done.
  - subst s. unfold SF64add, SFadd. cbn [cond_Zopp].
    set (ez := Z.min eL e).
    pose proof (shl_align_fst m e ez ltac:(lia)) as Ha.
    pose proof (shl_align_fst mL eL ez ltac:(lia)) as Hb'.
    set (a := fst (shl_align m e ez)) in *.
    set (b := fst (shl_align mL eL ez)) in *.
    change (Z.pos b + Z.pos a) with (Z.pos (b + a)). unfold binary_normalize.
    assert ((F2R (Z.pos mL) eL <= F2R (Z.pos (b + a)) ez)%R) as Hle.
    { rewrite <- Hb'. apply F2R_le_iff. lia. }
    pose proof (binary_round_low false (b + a) ez mL eL Hb Hle) as Hl.
    destruct (binary_round prec emax false (b + a) ez) as [s'|s'| |s' m' e']; try done.
    + by subst s'.
    + destruct Hl as [-> Hl]. done.
Qed.

Lemma SFadd_pos_not_nan x y : SFpos (SF64add x y) → x ≠ S754_nan ∧ y ≠ S754_nan.
Proof. destruct x as [[]|[]| |[] ? ?], y as [[]|[]| |[] ? ?]; simpl; done. Qed.


(** *** Division *)

Lemma new_location_exact nb k : new_location nb k = loc_Exact ↔ k = 0.
Proof.
  unfold new_location, new_location_even, new_location_odd.
  destruct (Z.even nb), (Z.eqb_spec k 0); split; done.
Qed.

Lemma SFdiv_core_spec m1 e1 m2 e2 :
  let '(q, e', l) := SFdiv_core_binary prec emax (Z.pos m1) e1 (Z.pos m2) e2 in
  ∃ s, 0 <= s ∧ e' + s = e1 - e2
       ∧ q = (Z.pos m1 * 2 ^ s) / Z.pos m2
       ∧ (l = loc_Exact ↔ (Z.pos m1 * 2 ^ s) mod Z.pos m2 = 0)
       ∧ e' <= fexp (Zdigits2 q + e').
Proof.
  unfold SFdiv_core_binary. cbv zeta.
  set (d1 := Zdigits2 (Z.pos m1)). set (d2 := Zdigits2 (Z.pos m2)).
  set (e' := Z.min (fexp (d1 + e1 - (d2 + e2))) (e1 - e2)).
  set (s := e1 - e2 - e').
  assert (0 <= s) as Hs by (unfold s, e'; lia).
  set (m' := match s with Z.pos _ => Z.shiftl (Z.pos m1) s | 0 => Z.pos m1 | Z.neg _ => 0 end).
  assert (m' = Z.pos m1 * 2 ^ s) as Hm'.
  { unfold m'. destruct s as [|p|p] eqn:E; [lia| |lia].
    by rewrite Z.shiftl_mul_pow2. }
  pose proof (Z_div_mod m' (Z.pos m2) ltac:(lia)) as Hdiv.
  destruct (Z.div_eucl m' (Z.pos m2)) as [q r] eqn:Hde. destruct Hdiv as [Hq Hr].
  exists s. rewrite <- Hm'. unfold Z.div, Z.modulo. rewrite Hde.
  split; [done|]. split; [unfold s; lia|]. split; [done|].
  split; [apply new_location_exact|].
  assert (0 < 2 ^ s) as Hps by (apply Z.pow_pos_nonneg; lia).
  assert (0 <= q) as Hq0 by nia.
  assert (d1 + s - d2 <= Zdigits2 q) as Hdq.
  { destruct (Z_le_gt_dec (d1 + s - d2) 0) as [|Hpos].
    - pose proof (Zdigits2_nonneg q). lia.
    - replace (d1 + s - d2) with (d1 - 1 + s - d2 + 1) by lia.
      apply Zdigits2_ge; [lia|].
      destruct (Zdigits2_bounds (Z.pos m1) ltac:(lia)) as [Hl1 _].
      destruct (Zdigits2_bounds (Z.pos m2) ltac:(lia)) as [_ Hu2].
      fold d1 in Hl1. fold d2 in Hu2.
      assert (1 <= d1 ∧ 1 <= d2) as [Hd1 Hd2] by (unfold d1, d2; simpl; lia).
      assert (2 ^ (d1 - 1 + s - d2) * 2 ^ d2 <= m') as Hlow.
      { rewrite Hm', <- Z.pow_add_r by lia.
        replace (d1 - 1 + s - d2 + d2) with (d1 - 1 + s) by lia.
        rewrite Z.pow_add_r by lia. nia. }
      assert (0 < 2 ^ (d1 - 1 + s - d2)) by (apply Z.pow_pos_nonneg; lia).
      nia. }
  clearbody m'. subst s e'. rewrite !fexp_eq in *. lia.
Qed.

Lemma F2R_one : F2R (2 ^ 52) (-52) = 1%R.
Proof.
  unfold F2R. rewrite <- bpow_IZR, <- bpow_add by lia. apply bpow_0.
Qed.

Lemma bounded_one : bounded (2 ^ 52) (-52) = true.
Proof. reflexivity. Qed.

(** [N / C >= -1] when [N >= -y] and [C >= y > 0]. *)
Lemma SFdiv_ge_neg n c (y : R) :
  SFge_neg n y → SFge c y → SFge_neg (SF64div n c) 1.
Proof.
  intros Hn Hc.
  destruct c as [|[]| |[] mc ec]; simpl in Hc; try done;
    destruct n as [[]|[]| |[] mn en]; simpl in Hn; try done.
  - (* negative over positive: the quotient is at most one in magnitude *)
    unfold SF64div, SFdiv.
    destruct (SFdiv_core_binary prec emax (Z.pos mn) en (Z.pos mc) ec) as [[q e'] l] eqn:Hcore.
    pose proof (SFdiv_core_spec mn en mc ec) as Hs. rewrite Hcore in Hs.
    destruct Hs as (s & Hs & He & Hq & Hl & Hd).
    assert (0 < 2 ^ s) as Hps by (apply Z.pow_pos_nonneg; lia).
    assert (0 <= q) as Hq0.
    { rewrite Hq. apply Z.div_pos; [|lia]. nia. }
    assert ((F2R (Z.pos mn) en <= F2R (Z.pos mc) ec)%R) as Hle by lra.
    assert (q * Z.pos mc <= Z.pos mn * 2 ^ s
            ∧ (l ≠ loc_Exact → q * Z.pos mc < Z.pos mn * 2 ^ s)) as [Hqm Hqm'].
    { pose proof (Z_div_mod (Z.pos mn * 2 ^ s) (Z.pos mc) ltac:(lia)) as Hdm.
      unfold Z.div in Hq. unfold Z.modulo in Hl.
      destruct (Z.div_eucl (Z.pos mn * 2 ^ s) (Z.pos mc)) as [q' r']. subst q'.
      destruct Hdm as [Hdm Hr]. split; [nia|].
      intros Hne. assert (r' ≠ 0) by (intros ->; apply Hne, Hl; done). nia. }
    assert ((F2R q e' * F2R (Z.pos mc) ec <= F2R (Z.pos mn) en
             ∧ (l ≠ loc_Exact → F2R q e' * F2R (Z.pos mc) ec < F2R (Z.pos mn) en))%R)
      as [Hv Hv'].
    { unfold F2R. replace en with (e' + s + ec) by lia.
      rewrite !bpow_add, (bpow_IZR s) by done.
      pose proof (bpow_gt_0 e'). pose proof (bpow_gt_0 ec).
      assert (0 < bpow e' * bpow ec)%R as HAC by nra.
      apply IZR_le in Hqm. rewrite !mult_IZR in Hqm.
      replace (IZR q * bpow e' * (IZR (Z.pos mc) * bpow ec))%R
        with (IZR q * IZR (Z.pos mc) * (bpow e' * bpow ec))%R by ring.
      replace (IZR (Z.pos mn) * (bpow e' * IZR (2 ^ s) * bpow ec))%R
        with (IZR (Z.pos mn) * IZR (2 ^ s) * (bpow e' * bpow ec))%R by ring.
      split.
      - apply Rmult_le_compat_r; lra.
      - intros Hne. specialize (Hqm' Hne). apply IZR_lt in Hqm'.
        rewrite !mult_IZR in Hqm'. apply Rmult_lt_compat_r; lra. }
    pose proof (F2R_pos (Z.pos mc) ec ltac:(lia)) as Hcpos.
    pose proof (binary_round_aux_up (xorb true false) q e' l (2 ^ 52) (-52)
                  Hq0 Hd bounded_one) as Hup.
    change (Z.pos (2 ^ 52)) with (2 ^ 52) in Hup. rewrite F2R_one in Hup.
    specialize (Hup ltac:(nra) ltac:(intros Hne; specialize (Hv' Hne); nra)).
    destruct (binary_round_aux prec emax (xorb true false) q e' l)
      as [s'|s'| |s' m' e'']; simpl in *; try done.
    destruct Hup as [-> Hup]. done.
  - (* positive over positive *)
    unfold SF64div, SFdiv.
    destruct (SFdiv_core_binary prec emax (Z.pos mn) en (Z.pos mc) ec) as [[q e'] l] eqn:Hcore.
    pose proof (SFdiv_core_spec mn en mc ec) as Hs. rewrite Hcore in Hs.
    destruct Hs as (s & Hs & He & Hq & Hl & Hd).
    assert (0 <= q).
    { rewrite Hq. apply Z.div_pos; [|lia].
      assert (0 < 2 ^ s) by (apply Z.pow_pos_nonneg; lia). nia. }
    pose proof (binary_round_aux_sign (xorb false false) q e' l ltac:(done)) as Hsg.
    destruct (binary_round_aux prec emax (xorb false false) q e' l); simpl in *; subst; done.
Qed.


(** *** Multiplication *)

Lemma mul_enough_digits m1 e1 m2 e2 :
  bounded m1 e1 = true → bounded m2 e2 = true →
  e1 + e2 <= fexp (Zdigits2 (Z.pos (m1 * m2)) + (e1 + e2)).
Proof.
  rewrite !bounded_iff, !fexp_eq. intros [H1 _] [H2 _].
  destruct (digits2_pos_bounds m1) as [Hl1 _].
  destruct (digits2_pos_bounds m2) as [Hl2 _].
  assert (Z.pos (digits2_pos m1) + Z.pos (digits2_pos m2) - 1
          <= Zdigits2 (Z.pos (m1 * m2))) as Hd.
  { replace (Z.pos (digits2_pos m1) + Z.pos (digits2_pos m2) - 1)
      with (Z.pos (digits2_pos m1) - 1 + (Z.pos (digits2_pos m2) - 1) + 1) by lia.
    apply Zdigits2_ge; [lia|].
    rewrite Z.pow_add_r, Pos2Z.inj_mul by lia. nia. }
  lia.
Qed.

Lemma SFmul_nonneg x y : SFnonneg x → SFnonneg y → SFnonneg (SF64mul x y).
Proof.
  intros Hx Hy.
  destruct x as [sx|sx| |sx mx ex], y as [sy|sy| |sy my ey];
    simpl in Hx, Hy; subst; try done.
  unfold SF64mul, SFmul.
  pose proof (binary_round_aux_sign (xorb false false) (Z.pos (mx * my)) (ex + ey)
                loc_Exact ltac:(lia)) as Hs.
  destruct (binary_round_aux prec emax (xorb false false) (Z.pos (mx * my)) (ex + ey)
              loc_Exact); done.
Qed.

(** [x * c >= -c] when [x >= -1] and [c] is a finite positive number. *)
Lemma SFmul_ge_neg x mc ec :
  valid_binary x = true → bounded mc ec = true →
  SFge_neg x 1 →
  SFge_neg (SF64mul x (S754_finite false mc ec)) (F2R (Z.pos mc) ec).
Proof.
  intros Hvx Hc Hx.
  destruct x as [sx|sx| |[] mx ex]; simpl in Hx; try done.
  - by subst sx.
  - unfold SF64mul, SFmul. simpl xorb.
    assert ((F2R (Z.pos (mx * mc)) (ex + ec) <= F2R (Z.pos mc) ec)%R) as Hle.
    { unfold F2R in *. rewrite Pos2Z.inj_mul, mult_IZR, bpow_add.
      pose proof (F2R_pos (Z.pos mc) ec ltac:(lia)) as Hpos. unfold F2R in Hpos.
      replace (IZR (Z.pos mx) * IZR (Z.pos mc) * (bpow ex * bpow ec))%R
        with (IZR (Z.pos mx) * bpow ex * (IZR (Z.pos mc) * bpow ec))%R by ring.
      nra. }
    pose proof (binary_round_aux_up true (Z.pos (mx * mc)) (ex + ec) loc_Exact mc ec
                  ltac:(lia) (mul_enough_digits _ _ _ _ Hvx Hc) Hc Hle ltac:(done)) as Hup.
    destruct (binary_round_aux prec emax true (Z.pos (mx * mc)) (ex + ec) loc_Exact)
      as [s'|s'| |s' m' e']; try done.
    destruct Hup as [-> Hup]. done.
  - unfold SF64mul, SFmul. simpl xorb.
    pose proof (binary_round_aux_sign false (Z.pos (mx * mc)) (ex + ec) loc_Exact
                  ltac:(lia)) as Hs.
    destruct (binary_round_aux prec emax false (Z.pos (mx * mc)) (ex + ec) loc_Exact);
      simpl; subst; done.
Qed.

(** *** Comparison *)

(** On canonical representations the order of the values is the
    lexicographic order on (exponent, mantissa). *)
Lemma bounded_le_lex m1 e1 m2 e2 :
  bounded m1 e1 = true → bounded m2 e2 = true →
  (F2R (Z.pos m1) e1 <= F2R (Z.pos m2) e2)%R →
  e1 < e2 ∨ (e1 = e2 ∧ (m1 <= m2)%positive).
Proof.
  intros H1 H2 Hle.
  destruct (Z.lt_trichotomy e1 e2) as [Hlt|[->|Hgt]]; [by left| |exfalso].
  - right. split; [done|]. apply F2R_le_iff in Hle. lia.
  - destruct (bounded_range _ _ H2) as (He2 & _ & Hu2).
    apply bounded_iff in H1 as [Hc1 _]. rewrite fexp_eq in Hc1.
    pose proof (F2R_digits_lower (Z.pos m1) e1 ltac:(lia)) as Hl1. simpl Zdigits2 in Hl1.
    assert (bpow (53 + e2) <= bpow (Z.pos (digits2_pos m1) - 1 + e1))%R
      by (apply bpow_le; lia).
    lra.
Qed.

(** A number that is NaN or at least [-c] is not below [-c]. *)
Lemma SFltb_ge_neg x mc ec :
  valid_binary x = true → bounded mc ec = true →
  SFge_neg x (F2R (Z.pos mc) ec) →
  SFltb x (S754_finite true mc ec) = false.
Proof.
  intros Hvx Hc Hx.
  destruct x as [sx|sx| |[] mx ex]; simpl in Hx; subst; try done.
  destruct (bounded_le_lex mx ex mc ec Hvx Hc Hx) as [Hlt|[-> Hle]];
    unfold SFltb, SFcompare.
  - apply Z.compare_lt_iff in Hlt. by rewrite Hlt.
  - rewrite Z.compare_refl. fold (Pos.compare mx mc).
    apply Pos.compare_le_iff in Hle. by destruct (Pos.compare mx mc).
Qed.


(** *** Results that are numbers *)

Lemma SFnn_nonneg x : SFnn x → SFnonneg x.
Proof. destruct x as [s|s| |s m e]; simpl; done. Qed.

Lemma SFnn_not_nan x : SFnn x → x ≠ S754_nan.
Proof. destruct x as [s|s| |s m e]; simpl; done. Qed.

Lemma SFpos_nn x : SFpos x → SFnn x.
Proof. destruct x as [s|[]| |[] m e]; simpl; done. Qed.

(** The product of two non-negative real numbers is a non-negative number. *)
Lemma SFmul_nn x y :
  SFnn x → SFnn y → SFfinite x → SFfinite y → SFnn (SF64mul x y).
Proof.
  intros Hx Hy Hfx Hfy.
  destruct x as [sx|sx| |sx mx ex], y as [sy|sy| |sy my ey];
    simpl in Hx, Hy, Hfx, Hfy; subst; try done.
  unfold SF64mul, SFmul.
  pose proof (binary_round_aux_sign (xorb false false) (Z.pos (mx * my)) (ex + ey)
                loc_Exact ltac:(lia)) as Hs.
  destruct (binary_round_aux prec emax (xorb false false) (Z.pos (mx * my)) (ex + ey)
              loc_Exact); done.
Qed.

(** A non-negative number times a positive real number is a non-negative
    number. *)
Lemma SFmul_nn_pos x y :
  SFnn x → SFpos y → SFfinite y → SFnn (SF64mul x y).
Proof.
  intros Hx Hy Hfy.
  destruct y as [sy|sy| |[] my ey]; simpl in Hy, Hfy; try done.
  destruct x as [sx|sx| |sx mx ex]; simpl in Hx; subst; try done.
  unfold SF64mul, SFmul.
  pose proof (binary_round_aux_sign (xorb false false) (Z.pos (mx * my)) (ex + ey)
                loc_Exact ltac:(lia)) as Hs.
  destruct (binary_round_aux prec emax (xorb false false) (Z.pos (mx * my)) (ex + ey)
              loc_Exact); done.
Qed.

Lemma SFadd_nn x y : SFnn x → SFnn y → SFnn (SF64add x y).
Proof.
  intros Hx Hy.
  destruct x as [sx|sx| |sx mx ex], y as [sy|sy| |sy my ey];
    simpl in Hx, Hy; subst; try done.
  - by destruct sx, sy.
  - unfold SF64add, SFadd. cbn [cond_Zopp].
    set (a := fst (shl_align mx ex (Z.min ex ey))).
    set (b := fst (shl_align my ey (Z.min ex ey))).
    change (Z.pos a + Z.pos b) with (Z.pos (a + b)). unfold binary_normalize.
    pose proof (binary_round_sign false (a + b) (Z.min ex ey)) as Hs.
    destruct (binary_round prec emax false (a + b) (Z.min ex ey)); done.
Qed.

Lemma binary_normalize_not_nan m e s :
  binary_normalize prec emax m e s ≠ S754_nan.
Proof.
  destruct m as [|p|p]; simpl; [done| |].
  - pose proof (binary_round_sign false p e) as Hs.
    destruct (binary_round prec emax false p e); done.
  - pose proof (binary_round_sign true p e) as Hs.
    destruct (binary_round prec emax true p e); done.
Qed.

Lemma SFsub_not_nan x y : x ≠ S754_nan → SFfinite y → SF64sub x y ≠ S754_nan.
Proof.
  intros Hx Hy.
  destruct x as [sx|sx| |sx mx ex], y as [sy|sy| |sy my ey];
    simpl in Hy; try done.
  - by destruct sx, sy.
  - apply binary_normalize_not_nan.
Qed.

Lemma SFdiv_not_nan x y : x ≠ S754_nan → SFpos y → SFfinite y → SF64div x y ≠ S754_nan.
Proof.
  intros Hx Hy Hfy.
  destruct y as [sy|sy| |[] my ey]; simpl in Hy, Hfy; try done.
  destruct x as [sx|sx| |sx mx ex]; try done.
  unfold SF64div, SFdiv.
  destruct (SFdiv_core_binary prec emax (Z.pos mx) ex (Z.pos my) ey) as [[q e'] l] eqn:Hcore.
  pose proof (SFdiv_core_spec mx ex my ey) as Hs. rewrite Hcore in Hs.
  destruct Hs as (s & Hs & He & Hq & Hl & Hd).
  assert (0 <= q).
  { rewrite Hq. apply Z.div_pos; [|lia].
    assert (0 < 2 ^ s) by (apply Z.pow_pos_nonneg; lia). nia. }
  pose proof (binary_round_aux_sign (xorb sx false) q e' l ltac:(done)) as Hsg.
  destruct (binary_round_aux prec emax (xorb sx false) q e' l); done.
Qed.

Lemma SFmul_not_nan x y : x ≠ S754_nan → SFpos y → SFfinite y → SF64mul x y ≠ S754_nan.
Proof.
  intros Hx Hy Hfy.
  destruct y as [sy|sy| |[] my ey]; simpl in Hy, Hfy; try done.
  destruct x as [sx|sx| |sx mx ex]; try done.
  unfold SF64mul, SFmul.
  pose proof (binary_round_aux_sign (xorb sx false) (Z.pos (mx * my)) (ex + ey)
                loc_Exact ltac:(lia)) as Hs.
  destruct (binary_round_aux prec emax (xorb sx false) (Z.pos (mx * my)) (ex + ey)
              loc_Exact); done.
Qed.

End Operations64.

(** * Primitive floats through their specification *)

Section Floats.
Local Open Scope float_scope.

Lemma ltb_0_false_iff x : (x <? 0) = false ↔ SFnonneg (Prim2SF x).
Proof.
  rewrite FloatAxioms.ltb_spec. change (Prim2SF 0) with (S754_zero false).
  destruct (Prim2SF x) as [s|[]| |[] m e]; simpl; split; done.
Qed.

Lemma ltb_1_false_nonneg x : (x <? 1) = false → SFnonneg (Prim2SF x).
Proof.
  rewrite FloatAxioms.ltb_spec. change (Prim2SF 1) with (S754_finite false (2 ^ 52) (-52)).
  destruct (Prim2SF x) as [s|[]| |[] m e]; simpl; done.
Qed.

Lemma ltb_0_true_pos x : (0 <? x) = true ↔ SFpos (Prim2SF x).
Proof.
  rewrite FloatAxioms.ltb_spec. change (Prim2SF 0) with (S754_zero false).
  destruct (Prim2SF x) as [s|[]| |[] m e]; simpl; split; done.
Qed.

Lemma eqb_0_zero x : (x =? 0) = true ↔ ∃ s, Prim2SF x = S754_zero s.
Proof.
  rewrite FloatAxioms.eqb_spec. change (Prim2SF 0) with (S754_zero false).
  destruct (Prim2SF x) as [s|[]| |[] m e]; simpl; split;
    try done; try (intros [? ?]; done); by eexists.
Qed.

(** [x <= 0] and [x > 0] exclude each other. *)
Lemma leb_0_true_ltb x : (x <=? 0) = true → (0 <? x) = false.
Proof.
  rewrite FloatAxioms.leb_spec, FloatAxioms.ltb_spec. change (Prim2SF 0) with (S754_zero false).
  destruct (Prim2SF x) as [s|[]| |[] m e]; simpl; done.
Qed.

Lemma is_nan_spec x : is_nan x = true ↔ Prim2SF x = S754_nan.
Proof.
  unfold is_nan. rewrite FloatAxioms.eqb_spec, negb_true_iff.
  destruct (Prim2SF x) as [s|[]| |[] m e] eqn:E; unfold SFeqb, SFcompare;
    rewrite ?Z.compare_refl, ?Pos.compare_cont_refl; simpl; split; done.
Qed.

Lemma leb_0_true_not_nan x : (x <=? 0) = true → is_nan x = false.
Proof.
  intros H. destruct (is_nan x) eqn:Hn; [|done].
  apply is_nan_spec in Hn. by rewrite FloatAxioms.leb_spec, Hn in H.
Qed.

Lemma ltb_0_true_not_nan x : (0 <? x) = true → is_nan x = false.
Proof.
  intros H. destruct (is_nan x) eqn:Hn; [|done].
  apply is_nan_spec in Hn. by rewrite FloatAxioms.ltb_spec, Hn in H.
Qed.

Lemma is_nan_false_iff x : is_nan x = false ↔ Prim2SF x ≠ S754_nan.
Proof. rewrite <- is_nan_spec. by destruct (is_nan x). Qed.

Lemma is_finite_spec x : is_finite x = true ↔ SFfinite (Prim2SF x).
Proof.
  unfold is_finite, is_infinity, is_nan.
  rewrite !FloatAxioms.eqb_spec, abs_spec.
  change (Prim2SF infinity) with (S754_infinity false).
  destruct (Prim2SF x) as [s|[]| |[] m e]; unfold SFeqb, SFcompare; simpl;
    rewrite ?Z.compare_refl, ?Pos.compare_cont_refl; simpl; split; done.
Qed.

Lemma ltb_1_false_pos x :
  (x <? 1) = false → SFfinite (Prim2SF x) → SFpos (Prim2SF x).
Proof.
  rewrite FloatAxioms.ltb_spec. change (Prim2SF 1) with (S754_finite false (2 ^ 52) (-52)).
  destruct (Prim2SF x) as [s|[]| |[] m e]; simpl; done.
Qed.

Lemma SFnonneg_finite_nn x : SFnonneg x → SFfinite x → SFnn x.
Proof. destruct x as [s|s| |s m e]; simpl; done. Qed.

Lemma SFadd_finite_l x y : SFfinite (SF64add x y) → SFfinite x.
Proof. destruct x as [[]|[]| |[] ? ?], y as [[]|[]| |[] ? ?]; simpl; done. Qed.

(** Multiplication of binary64 numbers is commutative. *)
Lemma SF64mul_comm x y : SF64mul x y = SF64mul y x.
Proof.
  destruct x as [sx|sx| |sx mx ex], y as [sy|sy| |sy my ey]; simpl;
    rewrite ?(xorb_comm sx sy); try done.
  by rewrite (Pos.mul_comm mx my), (Z.add_comm ex ey).
Qed.

Lemma mul_comm x y : x * y = y * x.
Proof. apply Prim2SF_inj. rewrite !mul_spec. apply SF64mul_comm. Qed.

Lemma mul_nonneg x y : (x <? 0) = false → (y <? 0) = false → (x * y <? 0) = false.
Proof.
  rewrite !ltb_0_false_iff, mul_spec. apply SFmul_nonneg.
Qed.

End Floats.

(** * The first-year return never falls below minus one hundred percent *)

Section ReturnBound.
Local Open Scope float_scope.

Lemma SFpos_ge c : SFpos c → ∃ y, SFge c y.
Proof.
  destruct c as [|[]| |[] m e]; simpl; try done; intros _.
  - by exists 0%R.
  - by eexists.
Qed.

(** The quotient [(S - L) / (L + I)] for non-negative [S], [L], [I] and a
    positive denominator is NaN or at least [-1]. *)
Lemma ratio_ge_neg_one sS sL sI :
  SFnonneg sS → SFnonneg sL → SFnonneg sI → valid_binary sL = true →
  SFpos (SF64add sL sI) →
  SFge_neg (SF64div (SF64sub sS sL) (SF64add sL sI)) 1.
Proof.
  intros HS HL HI HvL HC.
  destruct sL as [s|s| |s mL eL]; simpl in HL.
  - destruct (SFpos_ge _ HC) as [y Hy].
    apply (SFdiv_ge_neg _ _ y); [|done].
    apply SFnonneg_ge_neg. by apply SFsub_nonneg_zero.
  - subst s. clear HvL.
    destruct sS as [[]|[]| |[] ? ?], sI as [[]|[]| |[] ? ?]; simpl in *; done.
  - destruct sI; done.
  - subst s. destruct (SFadd_pos_not_nan _ _ HC) as [_ HIn].
    apply (SFdiv_ge_neg _ _ (F2R (Z.pos mL) eL)).
    + by apply SFsub_ge_neg.
    + by apply SFadd_ge.
Qed.

Lemma ratio_times_100 (N C : float) :
  SFge_neg (Prim2SF (N / C)) 1 → (N / C * 100 <? -100) = false.
Proof.
  intros H. rewrite FloatAxioms.ltb_spec.
  change (Prim2SF (-100)) with (S754_finite true 7036874417766400 (-46)).
  apply SFltb_ge_neg; [apply Prim2SF_valid|done|].
  rewrite mul_spec.
  change (Prim2SF 100) with (S754_finite false 7036874417766400 (-46)).
  apply SFmul_ge_neg; [apply Prim2SF_valid|done|done].
Qed.

(** Not being below [-100] means being NaN or at least [-100]. *)
Lemma ltb_minus_100_false x :
  (x <? -100) = false → is_nan x = true ∨ (-100 <=? x) = true.
Proof.
  rewrite is_nan_spec, FloatAxioms.ltb_spec, FloatAxioms.leb_spec.
  change (Prim2SF (-100)) with (S754_finite true 7036874417766400 (-46)).
  set (M := 7036874417766400%positive).
  destruct (Prim2SF x) as [s|[]| |[] m e]; auto.
  unfold SFltb, SFleb, SFcompare. intros H. right.
  rewrite (Z.compare_antisym e (-46)).
  destruct (e ?= -46)%Z; cbn [CompOpp] in *; [|done|done].
  rewrite (Pos.compare_cont_antisym M m Eq). cbn [CompOpp].
  by destruct (Pos.compare_cont Eq m M).
Qed.

End ReturnBound.

(** * The component *)

(** ** Validation *)

Section Validation.
Variable i : Inputs.

Lemma lookup_set_if (c : bool) (k v k' : string) (e : InputErrors) :
  set_if c k v e !! k' = if c && bool_decide (k = k') then Some v else e !! k'.
Proof.
  unfold set_if. destruct c; simpl; [|done].
  case_bool_decide; simplify_map_eq; done.
Qed.

Lemma lookup_newErrors_key (f : Field) :
  is_Some (newErrors i !! key f) ↔ violated f i = true.
Proof.
  unfold newErrors, JS.lt. rewrite !lookup_set_if, lookup_empty.
  destruct f; simpl;
    repeat match goal with
           | |- context [bool_decide (?a = ?b)] =>
               let b' := eval vm_compute in (bool_decide (a = b)) in
               change (bool_decide (a = b)) with b'
           end;
    rewrite ?andb_false_r, ?andb_true_r;
    repeat match goal with
           | |- context [if ?c then _ else _] => destruct c eqn:?
           end;
    split; intros H; try done; try (by eexists); by destruct H.
Qed.

Lemma lookup_newErrors_other (k : string) :
  is_Some (newErrors i !! k) → ∃ f, key f = k.
Proof.
  unfold newErrors. rewrite !lookup_set_if, lookup_empty.
  repeat match goal with
         | |- context [bool_decide (?a = k)] =>
             destruct (bool_decide_reflect (a = k)) as [<-|?]
         end;
    try (intros _; by (eexists FLicenseCost + eexists FNumUsers + eexists FHoursSaved
                       + eexists FHourlyRate + eexists FImplementationCost
                       + eexists FTimeToValue)).
  rewrite !andb_false_r. intros []; done.
Qed.

Lemma newErrors_empty_iff : newErrors i = ∅ ↔ Valid i.
Proof.
  split.
  - intros He f. destruct (violated f i) eqn:Hv; [|done].
    apply lookup_newErrors_key in Hv. rewrite He, lookup_empty in Hv.
    by destruct Hv.
  - intros Hv. apply map_empty. intros k.
    destruct (newErrors i !! k) eqn:Hk; [|done].
    destruct (lookup_newErrors_other k) as [f <-]; [by eexists|].
    assert (violated f i = true) as Hf by (apply lookup_newErrors_key; by eexists).
    by rewrite Hv in Hf.
Qed.

Lemma validateInputs_true_iff : snd (validateInputs i) = true ↔ Valid i.
Proof.
  unfold validateInputs; simpl. rewrite bool_decide_eq_true, map_size_empty_iff.
  apply newErrors_empty_iff.
Qed.

Lemma validateInputs_false_iff :
  snd (validateInputs i) = false ↔ ∃ f, violated f i = true.
Proof.
  rewrite <- not_true_iff_false, validateInputs_true_iff. unfold Valid. split.
  - intros Hn.
    destruct (violated FLicenseCost i) eqn:H1; [by eexists|].
    destruct (violated FNumUsers i) eqn:H2; [by eexists|].
    destruct (violated FHoursSaved i) eqn:H3; [by eexists|].
    destruct (violated FHourlyRate i) eqn:H4; [by eexists|].
    destruct (violated FImplementationCost i) eqn:H5; [by eexists|].
    destruct (violated FTimeToValue i) eqn:H6; [by eexists|].
    destruct Hn. by intros [].
  - intros [f Hf] Hv. by rewrite Hv in Hf.
Qed.

End Validation.

(** ** Shape of the derivation on a valid input *)

Lemma Valid_defaults : Valid defaults.
Proof. intros []; reflexivity. Qed.

Lemma calculations_invalid (i : Inputs) :
  (∃ f, violated f i = true) → calculations i = invalidCalculations.
Proof.
  intros Hv. apply validateInputs_false_iff in Hv.
  unfold calculations. by rewrite Hv.
Qed.

Lemma calculations_valid (i : Inputs) : Valid i → calculations i = derive i.
Proof.
  intros Hv. apply validateInputs_true_iff in Hv.
  unfold calculations. by rewrite Hv.
Qed.

(** The result is the sentinel record as a whole or the derived record as a
    whole. *)
Lemma calculations_all_or_nothing (i : Inputs) :
  ((∃ f, violated f i = true) ∧ calculations i = invalidCalculations)
  ∨ (Valid i ∧ calculations i = derive i).
Proof.
  destruct (snd (validateInputs i)) eqn:Hv.
  - apply validateInputs_true_iff in Hv. right. split; [done|].
    by apply calculations_valid.
  - apply validateInputs_false_iff in Hv. left. split; [done|].
    by apply calculations_invalid.
Qed.

(** Expose the derived record, with the comparisons as float tests. *)
Ltac derived Hv :=
  rewrite (calculations_valid _ Hv);
  unfold derive, JS.gt, JS.lt, JS.Infinity, JS.NaN; cbv zeta; simpl.

(** ** What the form stores *)

Lemma handleChange_not_NaN (val : float) : is_nan (handleChange val) = false.
Proof.
  unfold handleChange, JS.isNaN. destruct (is_nan val) eqn:Hn; [reflexivity|done].
Qed.

Lemma handleChange_real (val : float) :
  is_infinity val = false → JS.isFinite (handleChange val) = true.
Proof.
  intros Hi. unfold handleChange, JS.isNaN, JS.isFinite, is_finite.
  destruct (is_nan val) eqn:Hn; [reflexivity|]. by rewrite Hn, Hi.
Qed.

Lemma RealInputs_defaults : RealInputs defaults.
Proof. intros []; reflexivity. Qed.

(** ** What validity says about the amounts *)

Section ValidAmounts.
Variable i : Inputs.
Hypothesis Hv : Valid i.

Lemma valid_field_nonneg (f : Field) : SFnonneg (Prim2SF (field f i)).
Proof.
  specialize (Hv f). destruct f; simpl in *;
    first [by apply ltb_0_false_iff | by apply ltb_1_false_nonneg].
Qed.

(** The license cost per user and year. *)
Lemma actualLicenseCost_nonneg :
  SFnonneg (Prim2SF (match pricingModel i with
                     | annual => licenseCost i
                     | monthly => licenseCost i * 12
                     end)).
Proof.
  pose proof (valid_field_nonneg FLicenseCost) as Ha. simpl in Ha.
  destruct (pricingModel i); [|done].
  rewrite mul_spec. by apply SFmul_nonneg.
Qed.

Lemma annualLicenseCost_nonneg : SFnonneg (Prim2SF (annualLicenseCost (derive i))).
Proof.
  unfold derive; simpl. rewrite mul_spec.
  apply SFmul_nonneg; [apply actualLicenseCost_nonneg|].
  apply (valid_field_nonneg FNumUsers).
Qed.

Lemma annualSavings_nonneg : SFnonneg (Prim2SF (annualSavings (derive i))).
Proof.
  unfold derive; simpl. rewrite !mul_spec.
  repeat apply SFmul_nonneg; try done.
  - apply (valid_field_nonneg FHoursSaved).
  - apply (valid_field_nonneg FHourlyRate).
  - apply (valid_field_nonneg FNumUsers).
Qed.

(** With real numbers in the fields, the amounts are numbers too (possibly
    [+Infinity], by overflow). *)
Section Real.
Hypothesis Hr : RealInputs i.

Lemma real_field_finite (f : Field) : SFfinite (Prim2SF (field f i)).
Proof. apply is_finite_spec, Hr. Qed.

Lemma real_field_nn (f : Field) : SFnn (Prim2SF (field f i)).
Proof.
  apply SFnonneg_finite_nn; [apply valid_field_nonneg|apply real_field_finite].
Qed.

Lemma numUsers_pos : SFpos (Prim2SF (numUsers i)).
Proof.
  apply ltb_1_false_pos; [apply (Hv FNumUsers)|apply (real_field_finite FNumUsers)].
Qed.

Lemma annualLicenseCost_nn : SFnn (Prim2SF (annualLicenseCost (derive i))).
Proof.
  unfold derive; simpl. rewrite mul_spec.
  apply SFmul_nn_pos; [|apply numUsers_pos|apply (real_field_finite FNumUsers)].
  pose proof (real_field_nn FLicenseCost) as Ha. simpl in Ha.
  destruct (pricingModel i); [|done].
  rewrite mul_spec. by apply SFmul_nn_pos.
Qed.

Lemma annualSavings_nn : SFnn (Prim2SF (annualSavings (derive i))).
Proof.
  unfold derive; simpl. rewrite !mul_spec.
  apply SFmul_nn_pos; [|done|done].
  apply SFmul_nn_pos; [|apply numUsers_pos|apply (real_field_finite FNumUsers)].
  apply SFmul_nn.
  - apply (real_field_nn FHoursSaved).
  - apply (real_field_nn FHourlyRate).
  - apply (real_field_finite FHoursSaved).
  - apply (real_field_finite FHourlyRate).
Qed.

Lemma firstYearTotalCost_nn : SFnn (Prim2SF (firstYearTotalCost (derive i))).
Proof.
  change (firstYearTotalCost (derive i))
    with (annualLicenseCost (derive i) + implementationCost i).
  rewrite add_spec. apply SFadd_nn; [apply annualLicenseCost_nn|].
  apply (real_field_nn FImplementationCost).
Qed.

Lemma firstYearTotalCost_is_number : is_nan (firstYearTotalCost (derive i)) = false.
Proof. apply is_nan_false_iff, SFnn_not_nan, firstYearTotalCost_nn. Qed.

End Real.

End ValidAmounts.

(** ** [Math.max] against zero *)

Lemma Math_max_0 (x : float) :
  JS.Math_max 0 x = if is_nan x then nan else if 0 <? x then x else 0.
Proof.
  unfold JS.Math_max, JS.negative_sign.
  change (is_nan 0) with false. change (get_sign 0) with false. simpl.
  destruct (is_nan x), (0 <? x), (x <? 0); done.
Qed.

Lemma Math_max_0_pos (x : float) : (0 <? x) = true → JS.Math_max 0 x = x.
Proof.
  intros H. by rewrite Math_max_0, (ltb_0_true_not_nan x H), H.
Qed.

Lemma Math_max_0_nonpos (x : float) : (x <=? 0) = true → JS.Math_max 0 x = 0.
Proof.
  intros H. by rewrite Math_max_0, (leb_0_true_not_nan x H), (leb_0_true_ltb x H).
Qed.

(** * Properties of the metrics engine *)

(** ** Return on investment *)

(** C1: on a valid input [annualROI] follows the three-way branch: when
    [firstYearTotalCost > 0] it is [(annualNetValue / firstYearTotalCost) * 100];
    otherwise, when [annualNetValue > 0], it is [+Infinity]; otherwise [0].
    In particular zero implementation cost, zero license cost and positive
    savings give [+Infinity]. *)
Theorem annualROI_three_way (i : Inputs) :
  Valid i →
  let c := calculations i in
  annualROI c =
    (if 0 <? firstYearTotalCost c
     then annualNetValue c / firstYearTotalCost c * 100
     else if 0 <? annualNetValue c then infinity else 0)
  ∧ ((implementationCost i =? 0) = true →
     (annualLicenseCost c =? 0) = true →
     (0 <? annualSavings c) = true →
     annualROI c = infinity).
Proof.
  intros Hv. derived Hv.
  split; [done|].
  set (L := _ * numUsers i). set (S := _ * 52).
  intros [sI HI]%eqb_0_zero [sL HL]%eqb_0_zero HS%ltb_0_true_pos.
  assert ((0 <? L + implementationCost i) = false) as ->.
  { rewrite FloatAxioms.ltb_spec, add_spec, HI, HL. by destruct sI, sL. }
  assert ((0 <? S - L) = true) as ->; [|done].
  rewrite FloatAxioms.ltb_spec, sub_spec, HL.
  destruct (Prim2SF S) as [?|[]| |[] ? ?]; done.
Qed.

Lemma annualROI_three_way_witness :
  (Valid defaults
   ∧ annualROI (calculations defaults) =
       annualNetValue (calculations defaults)
       / firstYearTotalCost (calculations defaults) * 100)
  ∧ (Valid free_tool ∧ annualROI (calculations free_tool) = infinity).
Proof.
  assert (Valid free_tool) as Hfree by (intros []; reflexivity).
  split; (split; [done|]).
  - exact (proj1 (annualROI_three_way defaults Valid_defaults)).
  - refine (proj2 (annualROI_three_way free_tool Hfree) _ _ _); reflexivity.
Defined.

(** ** Payback period *)

(** C2: on a valid input [monthlyNetSavings] is
    [(annualSavings - annualLicenseCost) / 12]; when it is positive,
    [paybackPeriodMonths = timeToValue + implementationCost / monthlyNetSavings];
    when it is at most zero, [paybackPeriodMonths = +Infinity]. *)
Theorem paybackPeriodMonths_cases (i : Inputs) :
  Valid i →
  let c := calculations i in
  monthlyNetSavings c = (annualSavings c - annualLicenseCost c) / 12
  ∧ ((0 <? monthlyNetSavings c) = true →
     paybackPeriodMonths c = timeToValue i + implementationCost i / monthlyNetSavings c)
  ∧ ((monthlyNetSavings c <=? 0) = true → paybackPeriodMonths c = infinity).
Proof.
  intros Hv. derived Hv.
  split; [done|]. split.
  - by intros ->.
  - by intros ->%leb_0_true_ltb.
Qed.

Lemma paybackPeriodMonths_cases_witness :
  Valid defaults
  ∧ paybackPeriodMonths (calculations defaults) =
      timeToValue defaults
      + implementationCost defaults / monthlyNetSavings (calculations defaults).
Proof.
  split; [exact Valid_defaults|].
  refine (proj1 (proj2 (paybackPeriodMonths_cases defaults Valid_defaults)) _).
  reflexivity.
Defined.

(** ** Invalid inputs *)

(** C3: when at least one constraint is violated, every field of the result
    ([annualSavings], [firstYearTotalCost], [annualROI], [paybackPeriodMonths],
    [annualNetValue], [annualLicenseCost], [totalSavingsOver3Years],
    [monthlyNetSavings]) is NaN, and the remaining property,
    [firstYearAdjustedSavings], is absent.  The result is never a mixture: it
    is the sentinel record as a whole (some constraint is violated) or the
    derived record as a whole (none is). *)
Theorem invalid_input_all_NaN (i : Inputs) :
  let c := calculations i in
  ((∃ f, violated f i = true) →
   annualSavings c = JS.NaN
   ∧ firstYearTotalCost c = JS.NaN
   ∧ annualROI c = JS.NaN
   ∧ paybackPeriodMonths c = JS.NaN
   ∧ annualNetValue c = JS.NaN
   ∧ annualLicenseCost c = JS.NaN
   ∧ totalSavingsOver3Years c = JS.NaN
   ∧ monthlyNetSavings c = JS.NaN
   ∧ firstYearAdjustedSavings c = None)
  ∧ (((∃ f, violated f i = true) ∧ c = invalidCalculations)
     ∨ (Valid i ∧ c = derive i)).
Proof.
  cbv zeta. split; [|apply calculations_all_or_nothing].
  intros Hv. rewrite (calculations_invalid i Hv). simpl. done.
Qed.

Lemma invalid_input_all_NaN_witness :
  violated FHourlyRate negative_rate = true
  ∧ annualROI (calculations negative_rate) = JS.NaN.
Proof.
  split; [reflexivity|].
  refine (proj1 (proj2 (proj2 (proj1 (invalid_input_all_NaN negative_rate) _)))).
  exists FHourlyRate. reflexivity.
Defined.

(** C4: validation fails exactly when one of the six constraints is violated
    ([licenseCost < 0], [numUsers < 1], [hoursSaved < 0], [hourlyRate < 0],
    [implementationCost < 0], [timeToValue < 0]), and the keys of the stored
    error object are exactly the violated fields. *)
Theorem validateInputs_reports_exactly (i : Inputs) :
  (snd (validateInputs i) = false ↔ ∃ f, violated f i = true)
  ∧ (∀ k : string,
       k ∈ dom (fst (validateInputs i)) ↔ ∃ f, key f = k ∧ violated f i = true).
Proof.
  split; [apply validateInputs_false_iff|].
  intros k. unfold validateInputs. simpl. rewrite elem_of_dom. split.
  - intros Hk. destruct (lookup_newErrors_other i k Hk) as [f <-].
    exists f. split; [done|]. by apply lookup_newErrors_key.
  - intros (f & <- & Hf). by apply lookup_newErrors_key.
Qed.

(** ** The derived amounts *)

(** C5: on a valid input [annualLicenseCost] is [numUsers] times the license
    cost per user and year (the entered cost under annual pricing, twelve
    times it under monthly pricing), and [annualSavings] is
    [hoursSaved * hourlyRate * numUsers * 52]. *)
Theorem annualLicenseCost_annualSavings (i : Inputs) :
  Valid i →
  let c := calculations i in
  annualLicenseCost c =
    numUsers i * (match pricingModel i with
                  | annual => licenseCost i
                  | monthly => licenseCost i * 12
                  end)
  ∧ annualSavings c = hoursSaved i * hourlyRate i * numUsers i * 52.
Proof.
  intros Hv. derived Hv.
  split; [apply mul_comm|done].
Qed.

Lemma annualLicenseCost_annualSavings_witness :
  Valid defaults
  ∧ annualLicenseCost (calculations defaults) = 10 * (50 * 12)
  ∧ annualSavings (calculations defaults) = 5 * 75 * 10 * 52.
Proof.
  split; [exact Valid_defaults|].
  exact (annualLicenseCost_annualSavings defaults Valid_defaults).
Defined.

(** C6: on a valid input [firstYearAdjustedSavings] is
    [annualSavings * (max(0, 12 - timeToValue) / 12)] and
    [totalSavingsOver3Years] is [firstYearAdjustedSavings + annualSavings * 2]:
    the ramp-up only touches the first year.  The maximum is [12 - timeToValue]
    when that is positive and [0] when it is not. *)
Theorem first_year_and_three_year_savings (i : Inputs) :
  Valid i →
  let c := calculations i in
  let months := JS.Math_max 0 (12 - timeToValue i) in
  let adjusted := annualSavings c * (months / 12) in
  firstYearAdjustedSavings c = Some adjusted
  ∧ totalSavingsOver3Years c = adjusted + annualSavings c * 2
  ∧ ((0 <? 12 - timeToValue i) = true → months = 12 - timeToValue i)
  ∧ ((12 - timeToValue i <=? 0) = true → months = 0).
Proof.
  intros Hv. derived Hv.
  split; [done|]. split; [done|].
  split; [apply Math_max_0_pos|apply Math_max_0_nonpos].
Qed.

Lemma first_year_and_three_year_savings_witness :
  Valid defaults
  ∧ firstYearAdjustedSavings (calculations defaults) = Some (195000 * (9 / 12))
  ∧ totalSavingsOver3Years (calculations defaults) = 195000 * (9 / 12) + 195000 * 2.
Proof.
  split; [exact Valid_defaults|].
  pose proof (first_year_and_three_year_savings defaults Valid_defaults) as (H1 & H2 & _).
  split; [exact H1|exact H2].
Defined.

(** C7: the end-to-end example.  The input is the initial state of the form
    (50 per user and month, 10 users, 5 hours a week, 75 an hour, 5000 to
    implement, 3 months to value).  The two rounded figures are read to the
    printed precision: 1718.2 to one decimal, 3.317 to three. *)
Theorem default_example :
  let c := calculations (mkInputs 50 10 5 75 5000 3 monthly) in
  annualLicenseCost c = 6000
  ∧ annualSavings c = 195000
  ∧ firstYearTotalCost c = 11000
  ∧ annualNetValue c = 189000
  ∧ ((1718.15 <? annualROI c) = true ∧ (annualROI c <? 1718.25) = true)
  ∧ monthlyNetSavings c = 15750
  ∧ ((3.3165 <? paybackPeriodMonths c) = true
     ∧ (paybackPeriodMonths c <? 3.3175) = true)
  ∧ firstYearAdjustedSavings c = Some 146250
  ∧ totalSavingsOver3Years c = 536250.
Proof. vm_compute. repeat split. Qed.

(** ** The chart *)

Lemma chartData_of_number (c : Calculations) (a : float) :
  is_nan (firstYearTotalCost c) = false →
  firstYearAdjustedSavings c = Some a →
  chartData c = yearly_points c a.
Proof.
  intros Hn Ha. unfold chartData, JS.isNaN. rewrite Hn, Ha. done.
Qed.

Lemma chartData_of_NaN (c : Calculations) :
  is_nan (firstYearTotalCost c) = true → chartData c = zero_points.
Proof.
  intros Hn. unfold chartData, JS.isNaN. by rewrite Hn.
Qed.

(** C8: the chart has exactly three points.  On a valid input (the fields
    being real numbers, as the data model has them) Year 1 shows
    [firstYearTotalCost], [firstYearAdjustedSavings] and their difference, and
    Years 2 and 3 show [annualLicenseCost], [annualSavings] and
    [annualNetValue]; on an invalid input the three points are all zero.
    More generally the yearly points are shown for every valid input whose
    [firstYearTotalCost] is not NaN. *)
Theorem chartData_three_points (i : Inputs) :
  let c := calculations i in
  length (chartData c) = 3%nat
  ∧ (Valid i → RealInputs i →
     ∃ a, firstYearAdjustedSavings c = Some a ∧ chartData c = yearly_points c a)
  ∧ ((∃ f, violated f i = true) → chartData c = zero_points)
  ∧ (Valid i → is_nan (firstYearTotalCost c) = false →
     ∃ a, firstYearAdjustedSavings c = Some a ∧ chartData c = yearly_points c a).
Proof.
  cbv zeta.
  assert (Valid i → is_nan (firstYearTotalCost (calculations i)) = false →
          ∃ a, firstYearAdjustedSavings (calculations i) = Some a
               ∧ chartData (calculations i) = yearly_points (calculations i) a) as Hnum.
  { intros Hv. rewrite (calculations_valid i Hv). intros Hn.
    eexists. split; [reflexivity|]. by apply chartData_of_number. }
  split; [|split; [|split]]; [| | |done].
  - unfold chartData. by destruct (JS.isNaN _).
  - intros Hv Hr. apply Hnum; [done|].
    rewrite (calculations_valid i Hv). by apply firstYearTotalCost_is_number.
  - intros Hv. rewrite (calculations_invalid i Hv). by apply chartData_of_NaN.
Qed.

Lemma chartData_three_points_witness :
  (Valid defaults ∧ RealInputs defaults)
  ∧ ∃ a, firstYearAdjustedSavings (calculations defaults) = Some a
         ∧ chartData (calculations defaults) = yearly_points (calculations defaults) a.
Proof.
  split; [split; [exact Valid_defaults|exact RealInputs_defaults]|].
  exact (proj1 (proj2 (chartData_three_points defaults)) Valid_defaults RealInputs_defaults).
Defined.

(** Outside the data model: an infinite user count at no license cost is
    accepted by the validation, the cost is [0 * Infinity = NaN], and the
    chart falls back to the zero points. *)
Remark chartData_infinite_users :
  let i := mkInputs 0 infinity 5 75 5000 3 monthly in
  Valid i
  ∧ is_nan (firstYearTotalCost (calculations i)) = true
  ∧ chartData (calculations i) = zero_points.
Proof.
  cbv zeta. split; [intros []; reflexivity|]. split; vm_compute; reflexivity.
Qed.

(** ** A lower bound on the return *)

(** C9, as stated, at a license cost of 1e308 per user and month: the yearly
    cost overflows to [+Infinity], the net value is [-Infinity], and their
    quotient is NaN, which is not at least [-100]. *)
Lemma annualROI_overflow_counterexample :
  Valid overflowing_license
  ∧ RealInputs overflowing_license
  ∧ annualROI (calculations overflowing_license) = JS.NaN
  ∧ (-100 <=? annualROI (calculations overflowing_license)) = false.
Proof.
  split; [intros []; reflexivity|].
  split; [intros []; reflexivity|].
  split; vm_compute; reflexivity.
Qed.

(** C9, amended: on a valid input [annualROI] is never below [-100]: it is
    at least [-100] or it is NaN.  It is NaN only through overflow: when the
    fields are real numbers and [firstYearTotalCost] is finite, [annualROI]
    is at least [-100]. *)
Theorem annualROI_at_least_minus_100 (i : Inputs) :
  Valid i →
  let c := calculations i in
  (is_nan (annualROI c) = true ∨ (-100 <=? annualROI c) = true)
  ∧ (RealInputs i → JS.isFinite (firstYearTotalCost c) = true →
     (-100 <=? annualROI c) = true).
Proof.
  intros Hv. cbv zeta. rewrite (calculations_valid i Hv).
  pose proof (annualSavings_nonneg i Hv) as HS.
  pose proof (annualLicenseCost_nonneg i Hv) as HL.
  pose proof (valid_field_nonneg i Hv FImplementationCost) as HI. simpl in HI.
  assert (annualROI (derive i) =
          if 0 <? annualLicenseCost (derive i) + implementationCost i
          then (annualSavings (derive i) - annualLicenseCost (derive i))
               / (annualLicenseCost (derive i) + implementationCost i) * 100
          else if 0 <? annualSavings (derive i) - annualLicenseCost (derive i)
               then infinity else 0) as Hroi by reflexivity.
  change (firstYearTotalCost (derive i))
    with (annualLicenseCost (derive i) + implementationCost i).
  set (S := annualSavings (derive i)) in *.
  set (L := annualLicenseCost (derive i)) in *.
  set (I := implementationCost i) in *.
  rewrite Hroi. clear Hroi.
  destruct (0 <? L + I) eqn:HC.
  - assert (SFge_neg (Prim2SF ((S - L) / (L + I))) 1) as Hq.
    { rewrite div_spec, sub_spec, add_spec.
      apply ratio_ge_neg_one; try done; [apply Prim2SF_valid|].
      rewrite <- add_spec. by apply ltb_0_true_pos. }
    pose proof (ltb_minus_100_false _ (ratio_times_100 _ _ Hq)) as Hor.
    split; [done|]. intros Hr Hfin.
    destruct Hor as [Hnan|]; [exfalso|done].
    apply is_nan_spec in Hnan. revert Hnan.
    apply is_finite_spec in Hfin. apply ltb_0_true_pos in HC.
    rewrite mul_spec, div_spec, sub_spec.
    apply SFmul_not_nan; [|done|done].
    apply SFdiv_not_nan; [|done|done].
    apply SFsub_not_nan.
    + apply SFnn_not_nan. by apply annualSavings_nn.
    + rewrite add_spec in Hfin. by apply SFadd_finite_l in Hfin.
  - destruct (0 <? S - L); split; try (by right); done.
Qed.

Lemma annualROI_at_least_minus_100_witness :
  Valid defaults ∧ (-100 <=? annualROI (calculations defaults)) = true.
Proof.
  split; [exact Valid_defaults|].
  refine (proj2 (annualROI_at_least_minus_100 defaults Valid_defaults) RealInputs_defaults _).
  reflexivity.
Defined.

(** ** Fractional user counts *)

(** C10: validation accepts a user count that is not an integer.  With
    [numUsers = 1.5] (strictly between 1 and 2) and every other field
    non-negative the error object is empty, validation succeeds and the
    amounts are derived from the fractional count; whatever the input, the
    only test on [numUsers] is [numUsers < 1]. *)
Theorem fractional_numUsers_accepted :
  ((1 <? numUsers fractional_users) = true ∧ (numUsers fractional_users <? 2) = true)
  ∧ fst (validateInputs fractional_users) = ∅
  ∧ snd (validateInputs fractional_users) = true
  ∧ annualLicenseCost (calculations fractional_users) = 900
  ∧ annualSavings (calculations fractional_users) = 29250
  ∧ (∀ i : Inputs,
       is_Some (fst (validateInputs i) !! "numUsers") ↔ (numUsers i <? 1) = true).
Proof.
  assert (Valid fractional_users) as Hv by (intros []; reflexivity).
  split; [done|].
  split; [by apply newErrors_empty_iff|].
  split; [by apply validateInputs_true_iff|].
  rewrite (calculations_valid _ Hv).
  split; [reflexivity|]. split; [reflexivity|].
  intros i. apply (lookup_newErrors_key i FNumUsers).
Qed.

(** * Beyond the metrics: order, the form, the cards, the exports *)

(** ** The order of binary64 numbers is the order of the reals they denote *)

Section Order64.
Local Open Scope Z_scope.

Local Abbreviation bounded := (SpecFloat.bounded prec emax).

Lemma SFcompare_antisym x y :
  SFcompare y x = match SFcompare x y with
                  | Some c => Some (CompOpp c)
                  | None => None
                  end.
Proof.
  destruct x as [[]|[]| |[] m1 e1], y as [[]|[]| |[] m2 e2]; try done;
    unfold SFcompare; rewrite (Z.compare_antisym e1 e2);
    destruct (e1 ?= e2); cbn [CompOpp]; try done;
    by rewrite (Pos.compare_cont_antisym m1 m2 Eq).
Qed.

(** On canonical positive numbers the comparison decides the order of the
    values. *)
Lemma SFcompare_pos_spec m1 e1 m2 e2 :
  bounded m1 e1 = true → bounded m2 e2 = true →
  match SFcompare (S754_finite false m1 e1) (S754_finite false m2 e2) with
  | Some Lt => (F2R (Z.pos m1) e1 < F2R (Z.pos m2) e2)%R
  | Some Eq => F2R (Z.pos m1) e1 = F2R (Z.pos m2) e2
  | Some Gt => (F2R (Z.pos m2) e2 < F2R (Z.pos m1) e1)%R
  | None => False
  end.
Proof.
  intros H1 H2. unfold SFcompare.
  destruct (Z.compare_spec e1 e2) as [->|Hlt|Hgt].
  - fold (Pos.compare m1 m2).
    destruct (Pos.compare_spec m1 m2) as [->|Hm|Hm]; [done| |];
      apply F2R_lt_iff; lia.
  - apply Rnot_le_lt. intros Hle.
    destruct (bounded_le_lex _ _ _ _ H2 H1 Hle) as [?|[? _]]; lia.
  - apply Rnot_le_lt. intros Hle.
    destruct (bounded_le_lex _ _ _ _ H1 H2 Hle) as [?|[? _]]; lia.
Qed.

Lemma SFcompare_neg_pos m1 e1 m2 e2 :
  SFcompare (S754_finite true m1 e1) (S754_finite true m2 e2)
  = match SFcompare (S754_finite false m1 e1) (S754_finite false m2 e2) with
    | Some c => Some (CompOpp c)
    | None => None
    end.
Proof. unfold SFcompare. by destruct (e1 ?= e2). Qed.

(** The comparison of two real (zero or finite) numbers. *)
Lemma SFcompare_SF2R x y :
  valid_binary x = true → valid_binary y = true → SFfinite x → SFfinite y →
  match SFcompare x y with
  | Some Lt => (SF2R x < SF2R y)%R
  | Some Eq => SF2R x = SF2R y
  | Some Gt => (SF2R y < SF2R x)%R
  | None => False
  end.
Proof.
  intros Hx Hy Hfx Hfy.
  destruct x as [sx|sx| |sx m1 e1], y as [sy|sy| |sy m2 e2]; try done.
  - destruct sy; simpl; pose proof (F2R_pos (Z.pos m2) e2 ltac:(lia)); lra.
  - destruct sx; simpl; pose proof (F2R_pos (Z.pos m1) e1 ltac:(lia)); lra.
  - pose proof (F2R_pos (Z.pos m1) e1 ltac:(lia)).
    pose proof (F2R_pos (Z.pos m2) e2 ltac:(lia)).
    pose proof (SFcompare_pos_spec m1 e1 m2 e2 Hx Hy) as Hc.
    destruct sx, sy; [| | |done].
    + rewrite SFcompare_neg_pos.
      destruct (SFcompare (S754_finite false m1 e1) (S754_finite false m2 e2))
        as [[]|]; cbn [CompOpp SF2R]; try done; lra.
    + simpl. lra.
    + simpl. lra.
Qed.

Lemma SFleb_SF2R x y :
  valid_binary x = true → valid_binary y = true → SFfinite x → SFfinite y →
  (SFleb x y = true ↔ (SF2R x <= SF2R y)%R).
Proof.
  intros Hx Hy Hfx Hfy. pose proof (SFcompare_SF2R x y Hx Hy Hfx Hfy) as Hc.
  unfold SFleb. destruct (SFcompare x y) as [[]|]; split; intros; try done; lra.
Qed.

Lemma SFltb_SF2R x y :
  valid_binary x = true → valid_binary y = true → SFfinite x → SFfinite y →
  (SFltb x y = true ↔ (SF2R x < SF2R y)%R).
Proof.
  intros Hx Hy Hfx Hfy. pose proof (SFcompare_SF2R x y Hx Hy Hfx Hfy) as Hc.
  unfold SFltb. destruct (SFcompare x y) as [[]|]; split; intros; try done; lra.
Qed.

(** [+Infinity] is above every number. *)
Lemma SFleb_infinity x : x ≠ S754_nan → SFleb x (S754_infinity false) = true.
Proof. destruct x as [[]|[]| |[] m e]; done. Qed.

Lemma SFleb_zero_nn s x : SFnn x → SFleb (S754_zero s) x = true.
Proof. destruct x as [[]|[]| |[] m e]; done. Qed.

Lemma SFge_leb m e x :
  bounded m e = true → valid_binary x = true →
  SFge x (F2R (Z.pos m) e) → SFleb (S754_finite false m e) x = true.
Proof.
  intros Hb Hv Hx. destruct x as [sx|[]| |[] m' e']; try done.
  apply SFleb_SF2R; done.
Qed.

(** Adding a non-negative number does not make a non-negative number
    smaller, rounding included. *)
Lemma SFadd_nn_leb x y :
  valid_binary x = true → valid_binary (SF64add x y) = true →
  SFnn x → SFnn y → SFleb x (SF64add x y) = true.
Proof.
  intros Hvx Hvr Hx Hy. pose proof (SFadd_nn x y Hx Hy) as Hr.
  destruct x as [sx|sx| |sx m e]; simpl in Hx; try done.
  - by apply SFleb_zero_nn.
  - subst sx. destruct y as [sy|sy| |sy m' e']; simpl in Hy; subst; done.
  - subst sx. apply SFge_leb; [done|done|].
    apply SFadd_ge; [done|by apply SFnn_nonneg|by apply SFnn_not_nan].
Qed.

(** A non-negative real number divided by a positive number is a
    non-negative number. *)
Lemma SFdiv_nn x y : SFnn x → SFfinite x → SFpos y → SFnn (SF64div x y).
Proof.
  intros Hx Hfx Hy.
  destruct y as [sy|[]| |[] my ey]; simpl in Hy; try done;
    destruct x as [sx|sx| |sx mx ex]; simpl in Hx, Hfx; subst; try done.
  unfold SF64div, SFdiv.
  destruct (SFdiv_core_binary prec emax (Z.pos mx) ex (Z.pos my) ey) as [[q e'] l] eqn:Hcore.
  pose proof (SFdiv_core_spec mx ex my ey) as Hs. rewrite Hcore in Hs.
  destruct Hs as (s & Hs & He & Hq & Hl & Hd).
  assert (0 <= q).
  { rewrite Hq. apply Z.div_pos; [|lia].
    assert (0 < 2 ^ s) by (apply Z.pow_pos_nonneg; lia). nia. }
  pose proof (binary_round_aux_sign (xorb false false) q e' l ltac:(done)) as Hsg.
  destruct (binary_round_aux prec emax (xorb false false) q e' l); done.
Qed.

End Order64.

(** Float comparisons through the specification. *)

Lemma leb_of_spec x y : (x <=? y) = SFleb (Prim2SF x) (Prim2SF y).
Proof. apply FloatAxioms.leb_spec. Qed.

Lemma leb_0_nn x : SFnn (Prim2SF x) → (0 <=? x) = true.
Proof.
  intros H. rewrite FloatAxioms.leb_spec. change (Prim2SF 0) with (S754_zero false).
  by apply SFleb_zero_nn.
Qed.

(** Without NaN, [x < y] fails exactly when [y <= x] holds. *)
Lemma ltb_false_iff_leb x y :
  is_nan x = false → is_nan y = false → ((x <? y) = false ↔ (y <=? x) = true).
Proof.
  rewrite !is_nan_false_iff, FloatAxioms.ltb_spec, FloatAxioms.leb_spec.
  intros Hx Hy. unfold SFltb, SFleb. rewrite (SFcompare_antisym (Prim2SF x) (Prim2SF y)).
  destruct (SFcompare (Prim2SF x) (Prim2SF y)) as [[]|] eqn:Hc; cbn [CompOpp];
    split; try done.
  destruct (Prim2SF x) as [[]|[]| |[] ? ?], (Prim2SF y) as [[]|[]| |[] ? ?]; done.
Qed.

Lemma leb_true_ltb_false x y : (y <=? x) = true → (x <? y) = false.
Proof.
  rewrite FloatAxioms.ltb_spec, FloatAxioms.leb_spec.
  unfold SFltb, SFleb. rewrite (SFcompare_antisym (Prim2SF x) (Prim2SF y)).
  by destruct (SFcompare (Prim2SF x) (Prim2SF y)) as [[]|].
Qed.

(** ** The form *)

Lemma field_setField (f g : Field) (v : float) (i : Inputs) :
  field g (setField f v i) = if decide (key f = key g) then v else field g i.
Proof. by destruct f, g. Qed.

Lemma pricingModel_setField (f : Field) (v : float) (i : Inputs) :
  pricingModel (setField f v i) = pricingModel i.
Proof. by destruct f. Qed.

Lemma NoNaN_setField (f : Field) (v : float) (i : Inputs) :
  is_nan v = false → NoNaN i → NoNaN (setField f v i).
Proof.
  intros Hv Hi g. rewrite field_setField. by destruct (decide _).
Qed.

Lemma NoNaN_step (i : Inputs) (e : Event) : NoNaN i → NoNaN (step i e).
Proof.
  intros Hi. destruct e as [f parsed|m| |]; simpl.
  - apply NoNaN_setField; [apply handleChange_not_NaN|done].
  - intros f. specialize (Hi f). by destruct f.
  - unfold loadExample. by repeat apply NoNaN_setField.
  - unfold clearInputs. by repeat apply NoNaN_setField.
Qed.

Lemma NoNaN_run (events : list Event) (i : Inputs) : NoNaN i → NoNaN (run events i).
Proof.
  unfold run. revert i. induction events as [|e events IH]; intros i Hi; [done|].
  simpl. apply IH. by apply NoNaN_step.
Qed.

Lemma NoNaN_defaults : NoNaN defaults.
Proof. intros []; reflexivity. Qed.

(** X1: whatever the user does (edits with any text, pricing switches, the
    two buttons, in any order), no field of the state ever is NaN. *)
Theorem state_never_NaN (events : list Event) (f : Field) :
  is_nan (field f (run events defaults)) = false.
Proof. apply (NoNaN_run events defaults NoNaN_defaults f). Qed.

Lemma violated_meets (f : Field) (i : Inputs) :
  is_nan (field f i) = false → (violated f i = false ↔ meets f i = true).
Proof.
  intros Hn. destruct f; simpl in *; by apply ltb_false_iff_leb.
Qed.

Lemma meets_not_violated (f : Field) (i : Inputs) :
  meets f i = true → violated f i = false.
Proof. destruct f; simpl; apply leb_true_ltb_false. Qed.

Lemma NaN_not_violated (f : Field) (i : Inputs) :
  is_nan (field f i) = true → violated f i = false ∧ meets f i = false.
Proof.
  intros Hn%is_nan_spec.
  destruct f; simpl in *;
    by rewrite FloatAxioms.ltb_spec, FloatAxioms.leb_spec, Hn.
Qed.

(** X2: in every state the form can reach, validation succeeds exactly when
    every field meets the bound its message states (at least one user, no
    negative amount).  The tests themselves are of the form [x < bound], which
    a NaN passes: a NaN field is never reported, although it meets no bound;
    the equivalence rests on X1. *)
Theorem reachable_valid_iff_bounds (events : list Event) :
  let i := run events defaults in
  (snd (validateInputs i) = true ↔ ∀ f, meets f i = true)
  ∧ (∀ (j : Inputs) (f : Field),
       is_nan (field f j) = true →
       fst (validateInputs j) !! key f = None ∧ meets f j = false).
Proof.
  cbv zeta. split.
  - rewrite validateInputs_true_iff. unfold Valid.
    split; intros H f; specialize (H f).
    + by apply violated_meets; [apply (NoNaN_run events defaults NoNaN_defaults)|].
    + by apply meets_not_violated.
  - intros j f Hn. destruct (NaN_not_violated f j Hn) as [Hv Hm].
    split; [|done]. unfold validateInputs; simpl.
    destruct (newErrors j !! key f) eqn:Hk; [|done].
    assert (violated f j = true) by (apply lookup_newErrors_key; by eexists).
    congruence.
Qed.

(** X3: the "Clear Inputs" button always leaves an invalid form: it sets the
    user count to 0, so the error object is exactly the [numUsers] message,
    every box is shown empty, every card reads "N/A" and the chart is flat. *)
Theorem clearInputs_is_invalid (i : Inputs) :
  let j := step i ClearInputs in
  fst (validateInputs j) = {[ "numUsers" := "Must be at least 1." ]}
  ∧ snd (validateInputs j) = false
  ∧ (∀ f, inputValue (field f j) = Lit "")
  ∧ savingsCard (calculations j) = Lit "N/A"
  ∧ paybackCard (calculations j) = Lit "N/A"
  ∧ roiCard (calculations j) = Lit "N/A"
  ∧ chartData (calculations j) = zero_points.
Proof.
  cbv zeta. simpl step.
  assert (violated FNumUsers (clearInputs i) = true) as Hv by reflexivity.
  assert (calculations (clearInputs i) = invalidCalculations) as ->.
  { apply calculations_invalid. by exists FNumUsers. }
  split; [|split; [|split]].
  - apply map_eq. intros k.
    destruct (decide (k = "numUsers")) as [->|Hk].
    + rewrite lookup_singleton_eq. reflexivity.
    + rewrite lookup_singleton_ne by done.
      destruct (fst (validateInputs (clearInputs i)) !! k) eqn:E; [exfalso|done].
      destruct (lookup_newErrors_other (clearInputs i) k) as [f <-]; [by eexists|].
      assert (violated f (clearInputs i) = true) as Hf
        by (apply lookup_newErrors_key; by eexists).
      by destruct f.
  - apply validateInputs_false_iff. by exists FNumUsers.
  - by intros [].
  - done.
Qed.

(** ** The cards *)

Section Cards.
Variable i : Inputs.
Hypothesis Hv : Valid i.
Hypothesis Hr : RealInputs i.

Lemma monthlyNetSavings_pos_number :
  (0 <? monthlyNetSavings (derive i)) = true →
  SFnn (Prim2SF (implementationCost i / monthlyNetSavings (derive i))).
Proof.
  intros HM%ltb_0_true_pos. rewrite div_spec.
  apply SFdiv_nn; [|apply (real_field_finite i Hr FImplementationCost)|done].
  apply (real_field_nn i Hv Hr FImplementationCost).
Qed.

Lemma paybackPeriodMonths_nn : SFnn (Prim2SF (paybackPeriodMonths (derive i))).
Proof.
  change (paybackPeriodMonths (derive i))
    with (if 0 <? monthlyNetSavings (derive i)
          then timeToValue i + implementationCost i / monthlyNetSavings (derive i)
          else infinity).
  destruct (0 <? monthlyNetSavings (derive i)) eqn:HM; [|done].
  rewrite add_spec. apply SFadd_nn.
  - apply (real_field_nn i Hv Hr FTimeToValue).
  - by apply monthlyNetSavings_pos_number.
Qed.

Lemma annualROI_is_number :
  JS.isFinite (firstYearTotalCost (derive i)) = true →
  is_nan (annualROI (derive i)) = false.
Proof.
  intros Hfin.
  change (annualROI (derive i))
    with (if 0 <? firstYearTotalCost (derive i)
          then annualNetValue (derive i) / firstYearTotalCost (derive i) * 100
          else if 0 <? annualNetValue (derive i) then infinity else 0).
  destruct (0 <? firstYearTotalCost (derive i)) eqn:HC;
    [|by destruct (0 <? annualNetValue (derive i))].
  apply is_nan_false_iff. apply is_finite_spec in Hfin. apply ltb_0_true_pos in HC.
  rewrite mul_spec, div_spec.
  apply SFmul_not_nan; [|done|done].
  apply SFdiv_not_nan; [|done|done].
  change (annualNetValue (derive i))
    with (annualSavings (derive i) - annualLicenseCost (derive i)).
  rewrite sub_spec. apply SFsub_not_nan.
  - apply SFnn_not_nan. by apply annualSavings_nn.
  - change (firstYearTotalCost (derive i))
      with (annualLicenseCost (derive i) + implementationCost i) in Hfin.
    rewrite add_spec in Hfin. by apply SFadd_finite_l in Hfin.
Qed.

End Cards.

(** X4: for a form holding real numbers, "N/A" on the savings card and on
    the payback card means exactly that validation failed; the same holds for
    the return card as long as the first-year total cost has not overflowed. *)
Theorem NA_means_invalid (i : Inputs) :
  RealInputs i →
  let c := calculations i in
  (savingsCard c = Lit "N/A" ↔ ∃ f, violated f i = true)
  ∧ (paybackCard c = Lit "N/A" ↔ ∃ f, violated f i = true)
  ∧ (JS.isFinite (firstYearTotalCost (derive i)) = true →
     (roiCard c = Lit "N/A" ↔ ∃ f, violated f i = true)).
Proof.
  intros Hr. cbv zeta.
  destruct (calculations_all_or_nothing i) as [[Hbad ->]|[Hv ->]].
  - repeat split; done.
  - assert (¬ ∃ f, violated f i = true) as Hgood.
    { intros [f Hf]. by rewrite Hv in Hf. }
    unfold savingsCard, paybackCard, roiCard, JS.isNaN.
    pose proof (annualSavings_nn i Hv Hr) as HS%SFnn_not_nan%is_nan_false_iff.
    pose proof (paybackPeriodMonths_nn i Hv Hr) as HP%SFnn_not_nan%is_nan_false_iff.
    rewrite HS, HP. split; [|split].
    + split; [done|by intros ?].
    + split; [|by intros ?].
      by destruct (paybackPeriodMonths (derive i) =? JS.Infinity).
    + intros Hfin. rewrite (annualROI_is_number i Hv Hr Hfin).
      split; [|by intros ?].
      by destruct (annualROI (derive i) =? JS.Infinity).
Qed.

Lemma NA_means_invalid_witness :
  RealInputs negative_rate
  ∧ savingsCard (calculations negative_rate) = Lit "N/A".
Proof.
  assert (RealInputs negative_rate) as Hr by (intros []; reflexivity).
  split; [done|].
  apply (proj1 (NA_means_invalid negative_rate Hr)).
  exists FHourlyRate. reflexivity.
Defined.

(** ** Order between the amounts *)

Section Order64More.
Local Open Scope Z_scope.

Local Abbreviation bounded := (SpecFloat.bounded prec emax).

(** The two aligned mantissas of a sum or difference keep the order of the
    values. *)
Lemma aligned_le m1 e1 m2 e2 :
  (F2R (Z.pos m1) e1 <= F2R (Z.pos m2) e2)%R →
  Z.pos (fst (shl_align m1 e1 (Z.min e1 e2)))
  <= Z.pos (fst (shl_align m2 e2 (Z.min e1 e2))).
Proof.
  intros Hle.
  rewrite <- (shl_align_fst m1 e1 (Z.min e1 e2)) in Hle by lia.
  rewrite <- (shl_align_fst m2 e2 (Z.min e1 e2)) in Hle by lia.
  by apply F2R_le_iff in Hle.
Qed.

(** [x - y] is not positive when [x <= y]. *)
Lemma SFsub_leb_not_pos x y :
  valid_binary x = true → valid_binary y = true →
  SFnonneg x → SFnonneg y → SFleb x y = true → ¬ SFpos (SF64sub x y).
Proof.
  intros Hvx Hvy Hx Hy Hle.
  destruct x as [sx|sx| |sx m1 e1], y as [sy|sy| |sy m2 e2];
    simpl in Hx, Hy; subst; try done; try (by simpl; intros []).
  - destruct sx, sy; simpl; by intros [].
  - apply (SFleb_SF2R (S754_finite false m1 e1) (S754_finite false m2 e2)) in Hle;
      [|done..].
    simpl in Hle. apply aligned_le in Hle.
    unfold SF64sub, SFsub. cbn [cond_Zopp].
    set (a := fst (shl_align m1 e1 (Z.min e1 e2))) in *.
    set (b := fst (shl_align m2 e2 (Z.min e1 e2))) in *.
    destruct (Z.pos a - Z.pos b) as [|d|d] eqn:Hd; [by intros []|lia|].
    unfold binary_normalize.
    pose proof (binary_round_sign true d (Z.min e1 e2)) as Hs.
    destruct (binary_round prec emax true d (Z.min e1 e2)) as [?|[]| |[] ? ?];
      try done; by intros [].
Qed.

(** Dividing by a positive real number does not make a number positive. *)
Lemma SFdiv_not_pos x y :
  ¬ SFpos x → SFpos y → SFfinite y → ¬ SFpos (SF64div x y).
Proof.
  intros Hx Hy Hfy.
  destruct y as [sy|sy| |[] my ey]; simpl in Hy, Hfy; try done.
  destruct x as [sx|[]| |[] mx ex]; simpl in Hx; try done; try (by intros []).
  unfold SF64div, SFdiv.
  destruct (SFdiv_core_binary prec emax (Z.pos mx) ex (Z.pos my) ey) as [[q e'] l] eqn:Hcore.
  pose proof (SFdiv_core_spec mx ex my ey) as Hs. rewrite Hcore in Hs.
  destruct Hs as (s & Hs & He & Hq & Hl & Hd).
  assert (0 <= q).
  { rewrite Hq. apply Z.div_pos; [|lia].
    assert (0 < 2 ^ s) by (apply Z.pow_pos_nonneg; lia). nia. }
  pose proof (binary_round_aux_sign (xorb true false) q e' l ltac:(done)) as Hsg.
  destruct (binary_round_aux prec emax (xorb true false) q e' l) as [?|[]| |[] ? ?];
    try done; by intros [].
Qed.

End Order64More.

(** X5: a tool that saves no more than its licenses cost never pays back.
    On a valid input with [annualSavings <= annualLicenseCost] the payback
    period is [+Infinity] and its card reads "Never". *)
Theorem no_net_savings_never_pays_back (i : Inputs) :
  Valid i →
  let c := calculations i in
  (annualSavings c <=? annualLicenseCost c) = true →
  paybackPeriodMonths c = infinity ∧ paybackCard c = Lit "Never".
Proof.
  intros Hv. cbv zeta. rewrite (calculations_valid i Hv). intros Hle.
  assert ((0 <? monthlyNetSavings (derive i)) = false) as HM.
  { destruct (0 <? monthlyNetSavings (derive i)) eqn:E; [exfalso|done].
    apply ltb_0_true_pos in E. revert E.
    change (monthlyNetSavings (derive i))
      with ((annualSavings (derive i) - annualLicenseCost (derive i)) / 12).
    rewrite div_spec, sub_spec. apply SFdiv_not_pos; [|done|done].
    rewrite FloatAxioms.leb_spec in Hle.
    apply SFsub_leb_not_pos; try apply Prim2SF_valid; try done.
    - by apply annualSavings_nonneg.
    - by apply annualLicenseCost_nonneg. }
  assert (paybackPeriodMonths (derive i) = infinity) as HP.
  { change (paybackPeriodMonths (derive i))
      with (if 0 <? monthlyNetSavings (derive i)
            then timeToValue i + implementationCost i / monthlyNetSavings (derive i)
            else infinity).
    by rewrite HM. }
  split; [done|]. unfold paybackCard. by rewrite HP.
Qed.

Lemma no_net_savings_never_pays_back_witness :
  Valid break_even ∧ paybackCard (calculations break_even) = Lit "Never".
Proof.
  assert (Valid break_even) as Hv by (intros []; reflexivity).
  split; [done|].
  apply (no_net_savings_never_pays_back _ Hv). reflexivity.
Defined.

(** ** The first year *)

Section FirstYear64.
Local Open Scope Z_scope.

Local Abbreviation bounded := (SpecFloat.bounded prec emax).

Lemma SFupto_nn x y : SFupto x y → SFnn x.
Proof. destruct x as [?|?| |[] ? ?]; done. Qed.

Lemma SFupto_finite x y : SFupto x y → SFfinite x.
Proof. destruct x as [?|?| |[] ? ?]; done. Qed.

(** A positive difference [x - y] with [y >= 0] is at most [x]. *)
Lemma SFsub_upto mx ex y :
  bounded mx ex = true → SFnn y →
  SFpos (SF64sub (S754_finite false mx ex) y) →
  SFupto (SF64sub (S754_finite false mx ex) y) (F2R (Z.pos mx) ex).
Proof.
  intros Hb Hy.
  destruct y as [sy|sy| |sy my ey]; simpl in Hy; subst; try done.
  - simpl. lra.
  - unfold SF64sub, SFsub. cbn [cond_Zopp].
    set (ez := Z.min ex ey).
    pose proof (shl_align_fst mx ex ez ltac:(lia)) as Ha.
    set (a := fst (shl_align mx ex ez)) in *.
    set (b := fst (shl_align my ey ez)) in *.
    destruct (Z.pos a - Z.pos b) as [|d|d] eqn:Hd; unfold binary_normalize.
    + done.
    + intros _.
      assert ((F2R (Z.pos d) ez <= F2R (Z.pos mx) ex)%R) as Hle.
      { rewrite <- Ha. apply F2R_le_iff. lia. }
      pose proof (binary_round_up false d ez mx ex Hb Hle) as Hu.
      destruct (binary_round prec emax false d ez) as [s'|s'| |s' m' e']; try done.
      destruct Hu as [-> Hu]. done.
    + pose proof (binary_round_sign true d ez) as Hs.
      destruct (binary_round prec emax true d ez) as [?|[]| |[] ? ?]; done.
Qed.

(** The quotient of two positive finite numbers, the first at most the
    second, is at most one. *)
Lemma SFdiv_upto_one mn en mc ec :
  (F2R (Z.pos mn) en <= F2R (Z.pos mc) ec)%R →
  SFupto (SF64div (S754_finite false mn en) (S754_finite false mc ec)) 1.
Proof.
  intros Hle. unfold SF64div, SFdiv.
  destruct (SFdiv_core_binary prec emax (Z.pos mn) en (Z.pos mc) ec) as [[q e'] l] eqn:Hcore.
  pose proof (SFdiv_core_spec mn en mc ec) as Hs. rewrite Hcore in Hs.
  destruct Hs as (s & Hs & He & Hq & Hl & Hd).
  assert (0 < 2 ^ s) as Hps by (apply Z.pow_pos_nonneg; lia).
  assert (0 <= q) as Hq0.
  { rewrite Hq. apply Z.div_pos; [|lia]. nia. }
  assert (q * Z.pos mc <= Z.pos mn * 2 ^ s
          ∧ (l ≠ loc_Exact → q * Z.pos mc < Z.pos mn * 2 ^ s)) as [Hqm Hqm'].
  { pose proof (Z_div_mod (Z.pos mn * 2 ^ s) (Z.pos mc) ltac:(lia)) as Hdm.
    unfold Z.div in Hq. unfold Z.modulo in Hl.
    destruct (Z.div_eucl (Z.pos mn * 2 ^ s) (Z.pos mc)) as [q' r']. subst q'.
    destruct Hdm as [Hdm Hr]. split; [nia|].
    intros Hne. assert (r' ≠ 0) by (intros ->; apply Hne, Hl; done). nia. }
  assert ((F2R q e' * F2R (Z.pos mc) ec <= F2R (Z.pos mn) en
           ∧ (l ≠ loc_Exact → F2R q e' * F2R (Z.pos mc) ec < F2R (Z.pos mn) en))%R)
    as [Hv Hv'].
  { unfold F2R. replace en with (e' + s + ec) by lia.
    rewrite !bpow_add, (bpow_IZR s) by done.
    pose proof (bpow_gt_0 e'). pose proof (bpow_gt_0 ec).
    assert (0 < bpow e' * bpow ec)%R as HAC by nra.
    apply IZR_le in Hqm. rewrite !mult_IZR in Hqm.
    replace (IZR q * bpow e' * (IZR (Z.pos mc) * bpow ec))%R
      with (IZR q * IZR (Z.pos mc) * (bpow e' * bpow ec))%R by ring.
    replace (IZR (Z.pos mn) * (bpow e' * IZR (2 ^ s) * bpow ec))%R
      with (IZR (Z.pos mn) * IZR (2 ^ s) * (bpow e' * bpow ec))%R by ring.
    split.
    - apply Rmult_le_compat_r; lra.
    - intros Hne. specialize (Hqm' Hne). apply IZR_lt in Hqm'.
      rewrite !mult_IZR in Hqm'. apply Rmult_lt_compat_r; lra. }
  pose proof (F2R_pos (Z.pos mc) ec ltac:(lia)) as Hcpos.
  pose proof (binary_round_aux_up (xorb false false) q e' l (2 ^ 52) (-52)
                Hq0 Hd bounded_one) as Hup.
  change (Z.pos (2 ^ 52)) with (2 ^ 52) in Hup. rewrite F2R_one in Hup.
  specialize (Hup ltac:(nra) ltac:(intros Hne; specialize (Hv' Hne); nra)).
  destruct (binary_round_aux prec emax (xorb false false) q e' l)
    as [s'|s'| |s' m' e'']; simpl in *; try done.
  destruct Hup as [-> Hup]. done.
Qed.

Lemma SFdiv_upto x mc ec :
  SFupto x (F2R (Z.pos mc) ec) →
  SFupto (SF64div x (S754_finite false mc ec)) 1.
Proof.
  destruct x as [sx|sx| |[] mx ex]; simpl; try done.
  apply SFdiv_upto_one.
Qed.

(** A non-negative real number times a factor between 0 and 1 is between 0
    and that number. *)
Lemma SFmul_upto x q :
  valid_binary x = true → valid_binary q = true →
  SFnn x → SFfinite x → SFupto q 1 →
  SFupto (SF64mul x q) (SF2R x).
Proof.
  intros Hvx Hvq Hx Hfx Hq.
  destruct x as [sx|sx| |sx mx ex]; simpl in Hx, Hfx; subst; try done;
    destruct q as [sq|sq| |[] mq eq]; simpl in Hq; try done.
  unfold SF64mul, SFmul. simpl xorb. simpl SF2R.
  assert ((F2R (Z.pos (mx * mq)) (ex + eq) <= F2R (Z.pos mx) ex)%R) as Hle.
  { unfold F2R in *. rewrite Pos2Z.inj_mul, mult_IZR, bpow_add.
    pose proof (F2R_pos (Z.pos mx) ex ltac:(lia)) as Hpos. unfold F2R in Hpos.
    replace (IZR (Z.pos mx) * IZR (Z.pos mq) * (bpow ex * bpow eq))%R
      with (IZR (Z.pos mx) * bpow ex * (IZR (Z.pos mq) * bpow eq))%R by ring.
    nra. }
  pose proof (binary_round_aux_up false (Z.pos (mx * mq)) (ex + eq) loc_Exact mx ex
                ltac:(lia) (mul_enough_digits _ _ _ _ Hvx Hvq) Hvx Hle ltac:(done)) as Hup.
  destruct (binary_round_aux prec emax false (Z.pos (mx * mq)) (ex + eq) loc_Exact)
    as [s'|s'| |s' m' e']; try done.
  destruct Hup as [-> Hup]. done.
Qed.

Lemma SFupto_leb a x :
  valid_binary a = true → valid_binary x = true →
  SFnn x → SFfinite x → SFupto a (SF2R x) → SFleb a x = true.
Proof.
  intros Hva Hvx Hx Hfx Ha.
  apply SFleb_SF2R; [done|done|by eapply SFupto_finite|done|].
  assert (0 <= SF2R x)%R as H0.
  { destruct x as [sx|sx| |sx mx ex]; simpl in Hx, Hfx; subst; try done; simpl;
      try lra.
    pose proof (F2R_pos (Z.pos mx) ex ltac:(lia)). lra. }
  destruct a as [sa|sa| |[] ma ea]; simpl in Ha; try done; simpl; lra.
Qed.

Lemma SFsub_finite_not_nan mx ex s y :
  y ≠ S754_nan → SF64sub (S754_finite s mx ex) y ≠ S754_nan.
Proof.
  intros Hy. destruct y as [sy|sy| |sy my ey]; try done.
  apply binary_normalize_not_nan.
Qed.

Lemma SFeqb_refl x : x ≠ S754_nan → SFeqb x x = true.
Proof.
  intros Hx. destruct x as [[]|[]| |[] m e]; try done;
    unfold SFeqb, SFcompare; by rewrite Z.compare_refl, Pos.compare_cont_refl.
Qed.

(** Adding a zero changes nothing, up to the sign of zero. *)
Lemma SFadd_zero_l s y : y ≠ S754_nan → SFeqb (SF64add (S754_zero s) y) y = true.
Proof.
  intros Hy. destruct y as [sy|sy| |sy my ey]; try done.
  - by destruct s, sy.
  - by apply SFeqb_refl.
  - by apply SFeqb_refl.
Qed.

End FirstYear64.

Section NetValue64.

(** Subtracting a non-negative number from a non-negative real number does
    not make it larger, rounding included. *)
Lemma SFsub_nn_leb x y :
  valid_binary x = true → valid_binary (SF64sub x y) = true →
  SFnn x → SFfinite x → SFnn y → SFleb (SF64sub x y) x = true.
Proof.
  intros Hvx Hvr Hx Hfx Hy.
  destruct x as [sx|sx| |sx mx ex]; simpl in Hx, Hfx; subst; try done.
  - destruct y as [sy|sy| |sy my ey]; simpl in Hy; subst; try done.
    by destruct sx, sy.
  - pose proof (SFsub_upto mx ex y Hvx Hy) as Hup.
    pose proof (SFsub_finite_not_nan mx ex false y (SFnn_not_nan y Hy)) as Hnn.
    destruct (SF64sub (S754_finite false mx ex) y) as [sr|[]| |[] mr er] eqn:E;
      try done; try (exfalso; by apply Hup).
    apply (SFupto_leb (S754_finite false mr er) (S754_finite false mx ex)); try done.
    by apply Hup.
Qed.

End NetValue64.

(** X6: on a valid form holding real numbers the amounts are ordered as one
    expects, rounding and overflow included: the annual savings and the annual
    license cost are at least 0 (hence not NaN), and the first-year total cost
    is at least the annual license cost. *)
Theorem amounts_are_ordered (i : Inputs) :
  Valid i → RealInputs i →
  let c := calculations i in
  (0 <=? annualSavings c) = true
  ∧ (0 <=? annualLicenseCost c) = true
  ∧ (annualLicenseCost c <=? firstYearTotalCost c) = true
  ∧ (JS.isFinite (annualSavings c) = true →
     (annualNetValue c <=? annualSavings c) = true).
Proof.
  intros Hv Hr. cbv zeta. rewrite (calculations_valid i Hv).
  split; [|split; [|split]].
  - apply leb_0_nn. by apply annualSavings_nn.
  - apply leb_0_nn. by apply annualLicenseCost_nn.
  - change (firstYearTotalCost (derive i))
      with (annualLicenseCost (derive i) + implementationCost i).
    rewrite FloatAxioms.leb_spec. rewrite add_spec.
    apply SFadd_nn_leb.
    + apply Prim2SF_valid.
    + rewrite <- add_spec. apply Prim2SF_valid.
    + by apply annualLicenseCost_nn.
    + apply (real_field_nn i Hv Hr FImplementationCost).
  - intros Hfin%is_finite_spec.
    change (annualNetValue (derive i))
      with (annualSavings (derive i) - annualLicenseCost (derive i)).
    rewrite FloatAxioms.leb_spec, sub_spec.
    apply SFsub_nn_leb; try done.
    + apply Prim2SF_valid.
    + rewrite <- sub_spec. apply Prim2SF_valid.
    + by apply annualSavings_nn.
    + by apply annualLicenseCost_nn.
Qed.

Lemma amounts_are_ordered_witness :
  (Valid overflowing_license ∧ RealInputs overflowing_license)
  ∧ (annualLicenseCost (calculations overflowing_license)
     <=? firstYearTotalCost (calculations overflowing_license)) = true.
Proof.
  assert (Valid overflowing_license) as Hv by (intros []; reflexivity).
  assert (RealInputs overflowing_license) as Hr by (intros []; reflexivity).
  split; [done|].
  exact (proj1 (proj2 (proj2 (amounts_are_ordered overflowing_license Hv Hr)))).
Defined.

(** X7: the payback period is never shorter than the time to value.  On a
    valid form holding real numbers [timeToValue <= paybackPeriodMonths],
    whether the period is finite, has overflowed, or is "never". *)
Theorem payback_not_before_value (i : Inputs) :
  Valid i → RealInputs i →
  (timeToValue i <=? paybackPeriodMonths (calculations i)) = true.
Proof.
  intros Hv Hr. rewrite (calculations_valid i Hv).
  pose proof (real_field_nn i Hv Hr FTimeToValue) as Ht. simpl in Ht.
  change (paybackPeriodMonths (derive i))
    with (if 0 <? monthlyNetSavings (derive i)
          then timeToValue i + implementationCost i / monthlyNetSavings (derive i)
          else infinity).
  rewrite FloatAxioms.leb_spec.
  destruct (0 <? monthlyNetSavings (derive i)) eqn:HM.
  - rewrite add_spec. apply SFadd_nn_leb.
    + apply Prim2SF_valid.
    + rewrite <- add_spec. apply Prim2SF_valid.
    + done.
    + by apply monthlyNetSavings_pos_number.
  - apply SFleb_infinity. by apply SFnn_not_nan.
Qed.

Lemma payback_not_before_value_witness :
  (Valid defaults ∧ RealInputs defaults)
  ∧ (3 <=? paybackPeriodMonths (calculations defaults)) = true.
Proof.
  split; [split; [exact Valid_defaults|exact RealInputs_defaults]|].
  exact (payback_not_before_value defaults Valid_defaults RealInputs_defaults).
Defined.

Section FirstYear.
Variable i : Inputs.
Hypothesis Hv : Valid i.
Hypothesis Hr : RealInputs i.

(** The months of the first year in which savings accrue: between 0 and 12. *)
Lemma effective_months_upto :
  SFupto (Prim2SF (JS.Math_max 0 (12 - timeToValue i))) (F2R 6755399441055744 (-49)).
Proof.
  pose proof (real_field_nn i Hv Hr FTimeToValue) as Ht. simpl in Ht.
  assert (is_nan (12 - timeToValue i) = false) as Hn.
  { apply is_nan_false_iff. rewrite sub_spec.
    change (Prim2SF 12) with (S754_finite false 6755399441055744 (-49)).
    by apply SFsub_finite_not_nan, SFnn_not_nan. }
  rewrite Math_max_0, Hn.
  destruct (0 <? 12 - timeToValue i) eqn:Hp; [|done].
  apply ltb_0_true_pos in Hp. rewrite sub_spec in Hp |- *.
  change (Prim2SF 12) with (S754_finite false 6755399441055744 (-49)) in Hp |- *.
  by apply SFsub_upto.
Qed.

Lemma ramp_factor_upto :
  SFupto (Prim2SF (JS.Math_max 0 (12 - timeToValue i) / 12)) 1.
Proof.
  rewrite div_spec.
  change (Prim2SF 12) with (S754_finite false 6755399441055744 (-49)).
  apply SFdiv_upto, effective_months_upto.
Qed.

Lemma firstYearAdjustedSavings_derive :
  firstYearAdjustedSavings (derive i)
  = Some (annualSavings (derive i) * (JS.Math_max 0 (12 - timeToValue i) / 12)).
Proof. reflexivity. Qed.

End FirstYear.

(** X8: the savings of the first year are a part of a full year's savings.
    On a valid form holding real numbers, as long as the annual savings have
    not overflowed, [0 <= firstYearAdjustedSavings <= annualSavings], with
    the three roundings of the ramp-up computation included. *)
Theorem first_year_savings_within_annual (i : Inputs) :
  Valid i → RealInputs i →
  let c := calculations i in
  JS.isFinite (annualSavings c) = true →
  ∃ a, firstYearAdjustedSavings c = Some a
       ∧ (0 <=? a) = true
       ∧ (a <=? annualSavings c) = true.
Proof.
  intros Hv Hr. cbv zeta. rewrite (calculations_valid i Hv). intros Hfin.
  apply is_finite_spec in Hfin.
  pose proof (annualSavings_nn i Hv Hr) as HS.
  rewrite firstYearAdjustedSavings_derive. eexists. split; [reflexivity|].
  assert (SFupto (Prim2SF (annualSavings (derive i)
                           * (JS.Math_max 0 (12 - timeToValue i) / 12)))
            (SF2R (Prim2SF (annualSavings (derive i))))) as HA.
  { rewrite mul_spec.
    apply SFmul_upto; try apply Prim2SF_valid; try done.
    by apply ramp_factor_upto. }
  split.
  - apply leb_0_nn. by eapply SFupto_nn.
  - rewrite FloatAxioms.leb_spec.
    apply SFupto_leb; try apply Prim2SF_valid; done.
Qed.

Lemma first_year_savings_within_annual_witness :
  (Valid defaults ∧ RealInputs defaults)
  ∧ ∃ a, firstYearAdjustedSavings (calculations defaults) = Some a
         ∧ (0 <=? a) = true
         ∧ (a <=? annualSavings (calculations defaults)) = true.
Proof.
  split; [split; [exact Valid_defaults|exact RealInputs_defaults]|].
  exact (first_year_savings_within_annual defaults Valid_defaults RealInputs_defaults
           eq_refl).
Defined.

(** X9: a time to value of a year or more wipes out the first year.  On a
    valid input with [timeToValue >= 12] and annual savings that have not
    overflowed, [firstYearAdjustedSavings] is zero and
    [totalSavingsOver3Years] equals two years of savings. *)
Theorem late_value_no_first_year_savings (i : Inputs) :
  Valid i →
  let c := calculations i in
  JS.isFinite (annualSavings c) = true →
  (12 <=? timeToValue i) = true →
  ∃ a, firstYearAdjustedSavings c = Some a
       ∧ (a =? 0) = true
       ∧ (totalSavingsOver3Years c =? annualSavings c * 2) = true.
Proof.
  intros Hv. cbv zeta. rewrite (calculations_valid i Hv). intros Hfin Hlate.
  apply is_finite_spec in Hfin.
  pose proof (valid_field_nonneg i Hv FTimeToValue) as Ht. simpl in Ht.
  assert (JS.Math_max 0 (12 - timeToValue i) = 0) as Hmonths.
  { rewrite Math_max_0.
    rewrite FloatAxioms.leb_spec in Hlate.
    assert (Prim2SF (timeToValue i) ≠ S754_nan) as Htn.
    { intros E. by rewrite E in Hlate. }
    assert (is_nan (12 - timeToValue i) = false) as ->.
    { apply is_nan_false_iff. rewrite sub_spec.
      change (Prim2SF 12) with (S754_finite false 6755399441055744 (-49)).
      by apply SFsub_finite_not_nan. }
    destruct (0 <? 12 - timeToValue i) eqn:Hp; [exfalso|done].
    apply ltb_0_true_pos in Hp. revert Hp. rewrite sub_spec.
    apply SFsub_leb_not_pos; try apply Prim2SF_valid; done. }
  rewrite firstYearAdjustedSavings_derive.
  change (totalSavingsOver3Years (derive i))
    with (annualSavings (derive i) * (JS.Math_max 0 (12 - timeToValue i) / 12)
          + annualSavings (derive i) * 2).
  rewrite Hmonths. change (0 / 12) with 0.
  assert (∃ s, Prim2SF (annualSavings (derive i) * 0) = S754_zero s) as [s Hz].
  { rewrite mul_spec. change (Prim2SF 0) with (S754_zero false).
    destruct (Prim2SF (annualSavings (derive i))) as [?|?| |? ? ?]; try done;
      by eexists. }
  eexists. split; [reflexivity|]. split.
  - apply eqb_0_zero. by exists s.
  - rewrite FloatAxioms.eqb_spec, add_spec, Hz.
    apply SFadd_zero_l. rewrite mul_spec.
    apply SFmul_not_nan; [|done|done].
    by destruct (Prim2SF (annualSavings (derive i))).
Qed.

Lemma late_value_no_first_year_savings_witness :
  Valid slow_start
  ∧ ∃ a, firstYearAdjustedSavings (calculations slow_start) = Some a
         ∧ (a =? 0) = true
         ∧ (totalSavingsOver3Years (calculations slow_start)
            =? annualSavings (calculations slow_start) * 2) = true.
Proof.
  assert (Valid slow_start) as Hv by (intros []; reflexivity).
  split; [done|].
  exact (late_value_no_first_year_savings slow_start Hv eq_refl eq_refl).
Defined.

(** ** The value axis of the chart *)

(** Below [a <= b] there is nothing at or above [b]. *)
Lemma SFltb_leb_false v a b :
  valid_binary v = true → valid_binary a = true → valid_binary b = true →
  SFltb v a = true → SFleb a b = true → SFleb b v = false.
Proof.
  intros Hv Ha Hb H1 H2. destruct (SFleb b v) eqn:E; [exfalso|done].
  destruct v as [?|[]| |sv mv ev], a as [?|[]| |sa ma ea], b as [?|[]| |sb mb eb];
    try done;
    apply SFltb_SF2R in H1; try done;
    apply SFleb_SF2R in H2; try done;
    apply SFleb_SF2R in E; try done; lra.
Qed.

Lemma ltb_leb_false (v a b : float) :
  (v <? a) = true → (a <=? b) = true → (b <=? v) = false.
Proof.
  rewrite FloatAxioms.ltb_spec, !FloatAxioms.leb_spec.
  apply SFltb_leb_false; apply Prim2SF_valid.
Qed.

Lemma ltb_true_leb_false (x y : float) : (x <? y) = true → (y <=? x) = false.
Proof.
  intros H. destruct (y <=? x) eqn:E; [|done].
  apply leb_true_ltb_false in E. congruence.
Qed.

(** X10: the axis abbreviates an amount only from 1000 up.  From one million
    it prints millions with one decimal, from one thousand to below one
    million it prints thousands without decimals, and anything below 1000 is
    printed in full: in particular every negative amount, however large, and
    NaN. *)
Theorem tickFormatter_ranges (value : float) :
  ((1000000 <=? value) = true →
   tickFormatter value = Cat (Lit "$") (Cat (ToFixed 1 (value / 1000000)) (Lit "M")))
  ∧ ((1000 <=? value) = true → (value <? 1000000) = true →
     tickFormatter value = Cat (Lit "$") (Cat (ToFixed 0 (value / 1000)) (Lit "K")))
  ∧ ((value <? 1000) = true ∨ is_nan value = true →
     tickFormatter value = Cat (Lit "$") (ToString value))
  ∧ ((value <? 0) = true → tickFormatter value = Cat (Lit "$") (ToString value)).
Proof.
  unfold tickFormatter.
  assert ((value <? 1000) = true ∨ is_nan value = true →
          (1000000 <=? value) = false ∧ (1000 <=? value) = false) as Hlow.
  { intros [Hlt|Hn].
    - split; [by apply (ltb_leb_false value 1000 1000000)|by apply ltb_true_leb_false].
    - apply is_nan_spec in Hn. by rewrite !FloatAxioms.leb_spec, Hn. }
  split; [by intros ->|]. split; [|split].
  - intros H1 H2%ltb_true_leb_false. by rewrite H2, H1.
  - intros H. destruct (Hlow H) as [-> ->]. done.
  - intros Hneg.
    assert ((1000 <=? value) = false) as H1
      by (by apply (ltb_leb_false value 0 1000)).
    assert ((1000000 <=? value) = false) as H2
      by (by apply (ltb_leb_false value 0 1000000)).
    by rewrite H2, H1.
Qed.

Lemma tickFormatter_ranges_witness :
  (-5000000 <? 0) = true
  ∧ tickFormatter (-5000000) = Cat (Lit "$") (ToString (-5000000)).
Proof.
  split; [reflexivity|].
  apply (proj2 (proj2 (proj2 (tickFormatter_ranges (-5000000))))). reflexivity.
Defined.

(** ** The exports *)


(** X12: the PDF report follows the cards only for finite figures.  Its
    return line is "First Year ROI: " followed by the text of the return card
    exactly when [annualROI] is neither NaN nor [+Infinity], and likewise for
    the payback line: where the cards read "N/A", "Infinite %" or "Never" the
    report formats the raw number. *)
Theorem pdf_follows_cards_iff_finite (c : Calculations) :
  (pdfLines c !! 5%nat = Some (Cat (Lit "First Year ROI: ") (roiCard c), 10, 80)%Z
   ↔ is_nan (annualROI c) = false ∧ (annualROI c =? infinity) = false)
  ∧ (pdfLines c !! 6%nat
     = Some (Cat (Lit "Payback Period (Months): ") (paybackCard c), 10, 90)%Z
     ↔ is_nan (paybackPeriodMonths c) = false
       ∧ (paybackPeriodMonths c =? infinity) = false).
Proof.
  unfold pdfLines, roiCard, paybackCard, JS.isNaN, JS.Infinity. simpl.
  split.
  - destruct (is_nan (annualROI c)), (annualROI c =? infinity);
      split; try done; intros H; by (inversion H || destruct H).
  - destruct (is_nan (paybackPeriodMonths c)), (paybackPeriodMonths c =? infinity);
      split; try done; intros H; by (inversion H || destruct H).
Qed.

(** ** The error object *)

(** X13: every violated field is reported with its own message, all at
    once: the error object maps each violated field to "Cannot be negative."
    (to "Must be at least 1." for the user count) and holds nothing else, so
    its size is the number of violated fields. *)
Theorem errors_hold_messages (i : Inputs) :
  (∀ f, fst (validateInputs i) !! key f
        = if violated f i then Some (message f) else None)
  ∧ size (fst (validateInputs i))
    = length (filter (λ f, violated f i = true) all_fields).
Proof.
  unfold validateInputs; simpl. split.
  - intros f. unfold newErrors, JS.lt. rewrite !lookup_set_if, lookup_empty.
    destruct f; simpl;
      repeat match goal with
             | |- context [bool_decide (?a = ?b)] =>
                 let b' := eval vm_compute in (bool_decide (a = b)) in
                 change (bool_decide (a = b)) with b'
             end;
      rewrite ?andb_false_r, ?andb_true_r;
      repeat match goal with
             | |- context [if ?c then _ else _] => destruct c eqn:?
             end; done.
  - unfold newErrors, all_fields, violated, JS.lt.
    destruct (licenseCost i <? 0), (numUsers i <? 1), (hoursSaved i <? 0),
      (hourlyRate i <? 0), (implementationCost i <? 0), (timeToValue i <? 0);
      vm_compute; reflexivity.
Qed.
